(** * Florida Bird Quest: the derived-state layer of [src/app/page.tsx]

    A shallow embedding of the page component's state and of the pure
    computations over it: the annotation toggles, the 100-bird challenge,
    the log form, the filtered view, the daily picks and the statistics.

    React state hooks become fields of a state record and every event
    handler becomes a function from state to state.  A handler runs against
    the render it was created in; the page re-renders after every discrete
    event, so the values a handler closes over ([user], [challenge]) are the
    current ones and a handler is a function of the current state only. *)

From Stdlib Require Import ZArith QArith Qround Qpower String Ascii List Lia Lqa
  HexadecimalString HexadecimalN HexadecimalPos.
From Stdlib Require Import PrimFloat FloatOps SpecFloat Uint63.
From stdpp Require Import base decidable option list gmap strings sorting.

Local Open Scope string_scope.
Local Open Scope Z_scope.

(** ** JavaScript strings

    A JavaScript string is a sequence of UTF-16 code units.  The model keeps
    the code units below 256 (Basic Latin and Latin-1 Supplement): a
    [string] here is the JavaScript string with the same code units, one
    [ascii] per unit. *)

Module JsString.

(** [s.charCodeAt(i)] for the unit [c] found at index [i]. *)
Definition charCode (c : ascii) : Z := Z.of_N (N_of_ascii c).

(** [s.length]. *)
Definition length (s : string) : Z := Z.of_nat (String.length s).

(** WhiteSpace and LineTerminator code units (ECMA-262, 12.2 and 12.3)
    below 256: TAB, LF, VT, FF, CR, SP and NBSP. *)
Definition isWhiteSpace (c : ascii) : bool :=
  let n := charCode c in
  ((9 <=? n) && (n <=? 13)) || (n =? 32) || (n =? 160).

Fixpoint trimStart (s : string) : string :=
  match s with
  | EmptyString => EmptyString
  | String c s' => if isWhiteSpace c then trimStart s' else s
  end.

Fixpoint trimEnd (s : string) : string :=
  match s with
  | EmptyString => EmptyString
  | String c s' =>
      match trimEnd s' with
      | EmptyString => if isWhiteSpace c then EmptyString else String c EmptyString
      | r => String c r
      end
  end.

(** [s.trim()]. *)
Definition trim (s : string) : string := trimEnd (trimStart s).

(** Lower-case mapping of one code unit below 256: [A-Z], and the Latin-1
    capitals U+00C0..U+00DE except the multiplication sign U+00D7. *)
Definition lowerUnit (c : ascii) : ascii :=
  let n := charCode c in
  if ((65 <=? n) && (n <=? 90))
     || ((192 <=? n) && (n <=? 222) && negb (n =? 215))
  then ascii_of_N (Z.to_N (n + 32))
  else c.

(** [s.toLowerCase()]. *)
Fixpoint toLowerCase (s : string) : string :=
  match s with
  | EmptyString => EmptyString
  | String c s' => String (lowerUnit c) (toLowerCase s')
  end.

(** [s.startsWith(t)]. *)
Fixpoint startsWith (s t : string) : bool :=
  match t, s with
  | EmptyString, _ => true
  | String _ _, EmptyString => false
  | String b t', String a s' => bool_decide (a = b) && startsWith s' t'
  end.

(** [s.includes(t)]: [t] occurs in [s] at some index. *)
Fixpoint includes (s t : string) : bool :=
  startsWith s t ||
  match s with
  | EmptyString => false
  | String _ s' => includes s' t
  end.

(** Truthiness of a string: the empty string is the only falsy one. *)
Definition truthy (s : string) : bool := negb (bool_decide (s = EmptyString)).

(** [o || ""] for an optional string property. *)
Definition orEmpty (o : option string) : string := default EmptyString o.

End JsString.

(** ** Data model *)

(** [type Months = Partial<Record<Month, boolean>>].  Objects are the finite
    maps of their own properties. *)
Abbreviation Months := (gmap string bool).

Module Species.
Record t : Type := mk {
  id : string;
  common : string;
  sci : option string;
  family : option string;
  season : option string;
  habitat : option string;
  bestSpot : option string;
  months : option Months
}.
End Species.

Module UserSpecies.
Record t : Type := mk {
  id : string;
  seen : bool;
  target : bool;
  date : option string;
  location : option string;
  county : option string;
  notes : option string
}.

Definition with_seen (b : bool) (u : t) : t :=
  mk (id u) b (target u) (date u) (location u) (county u) (notes u).

Definition with_target (b : bool) (u : t) : t :=
  mk (id u) (seen u) b (date u) (location u) (county u) (notes u).
End UserSpecies.

Module ChallengeState.
Record t : Type := mk {
  active : bool;
  startedAt : option string;
  completedIds : list string
}.

(** [{ ...c, completedIds: [...c.completedIds, id] }] *)
Definition push (i : string) (c : t) : t :=
  mk (active c) (startedAt c) (completedIds c ++ [i]).
End ChallengeState.

(** [xs.includes(x)] on an array of strings. *)
Definition Array_includes (xs : list string) (x : string) : bool :=
  bool_decide (x ∈ xs).

(** The pieces of [Page] state the handlers below write. *)
Record State : Type := mkState {
  user : gmap string UserSpecies.t;
  challenge : ChallengeState.t
}.

(** [useState] initial values. *)
Definition initialChallenge : ChallengeState.t :=
  ChallengeState.mk false None [].

Definition initialState : State := mkState ∅ initialChallenge.

(** ** Annotation toggles and the challenge *)

Definition ensureUserRow (u : gmap string UserSpecies.t) (i : string) : UserSpecies.t :=
  match u !! i with
  | Some r => r
  | None => UserSpecies.mk i false false None None None None
  end.

Definition toggleSeen (i : string) (st : State) : State :=
  let current := ensureUserRow (user st) i in
  let user' := <[i := UserSpecies.with_seen (negb (UserSpecies.seen current)) current]> (user st) in
  let c := challenge st in
  if negb (ChallengeState.active c) then mkState user' c
  else
    let nextSeen := negb (UserSpecies.seen current) in
    if nextSeen
       && negb (Array_includes (ChallengeState.completedIds c) i)
       && (Z.of_nat (length (ChallengeState.completedIds c)) <? 100)
    then mkState user' (ChallengeState.push i c)
    else mkState user' c.

Definition toggleTarget (i : string) (st : State) : State :=
  let current := ensureUserRow (user st) i in
  mkState
    (<[i := UserSpecies.with_target (negb (UserSpecies.target current)) current]> (user st))
    (challenge st).

(** The Count button of a daily pick with identifier [i]. *)
Definition countPick (i : string) (st : State) : State :=
  let c := challenge st in
  if negb (ChallengeState.active c) then st
  else if Array_includes (ChallengeState.completedIds c) i then st
  else if Z.of_nat (length (ChallengeState.completedIds c)) >=? 100 then st
  else mkState (user st) (ChallengeState.push i c).

(** [now] is the value of [new Date().toISOString()] at the click. *)
Definition startChallenge (now : string) (st : State) : State :=
  mkState (user st) (ChallengeState.mk true (Some now) []).

Definition resetChallenge (st : State) : State :=
  mkState (user st) (ChallengeState.mk false None []).

(** The events that reach the two stores. *)
Inductive Event : Type :=
| EToggleSeen (i : string)
| EToggleTarget (i : string)
| ECount (i : string)
| EStart (now : string)
| EReset.

Definition step (st : State) (e : Event) : State :=
  match e with
  | EToggleSeen i => toggleSeen i st
  | EToggleTarget i => toggleTarget i st
  | ECount i => countPick i st
  | EStart now => startChallenge now st
  | EReset => resetChallenge st
  end.

Definition run (es : list Event) (st : State) : State := fold_left step es st.

(** ** The log store and the log form *)

Inductive Kind : Type := Raptors | Owls | Shorebirds | General.

Module LogEntry.
Record t : Type := mk {
  id : string;
  date : string;
  speciesName : string;
  location : string;
  county : option string;
  kind : Kind;
  settings : option string;
  notes : option string
}.
End LogEntry.

(** [Omit<LogEntry, "id">] *)
Module LogDraft.
Record t : Type := mk {
  date : string;
  speciesName : string;
  location : string;
  county : option string;
  kind : Kind;
  settings : option string;
  notes : option string
}.

(** [{ ...entry, id }] *)
Definition with_id (i : string) (e : t) : LogEntry.t :=
  LogEntry.mk i (date e) (speciesName e) (location e) (county e) (kind e)
    (settings e) (notes e).
End LogDraft.

(** What [uid] reads from its environment: [random16] is the string
    [Math.random().toString(16)] and [now] is [Date.now()]. *)
Record Entropy : Type := mkEntropy {
  random16 : string;
  now : N
}.

(** [n.toString(16)] for a non-negative integer. *)
Definition toString16 (n : N) : string :=
  HexadecimalString.NilZero.string_of_uint (N.to_hex_uint n).

(** [s.slice(2)] *)
Definition slice2 (s : string) : string :=
  String.substring 2 (String.length s - 2) s.

Definition uid (prefix : string) (en : Entropy) : string :=
  prefix +:+ "-" +:+ slice2 (random16 en) +:+ "-" +:+ toString16 (now en).

Definition addLog (en : Entropy) (entry : LogDraft.t) (logs : list LogEntry.t)
  : list LogEntry.t :=
  LogDraft.with_id (uid "log" en) entry :: logs.

(** The fields of [LogForm]. *)
Record LogForm : Type := mkLogForm {
  f_kind : Kind;
  f_date : string;
  f_speciesName : string;
  f_location : string;
  f_county : string;
  f_settings : string;
  f_notes : string
}.

(** [s.trim() || undefined] *)
Definition trimOrUndefined (s : string) : option string :=
  let t := JsString.trim s in
  if JsString.truthy t then Some t else None.

(** The form's [onSubmit] with [onAdd = addLog]: the form fields and the log
    sequence after the event. *)
Definition onSubmit (en : Entropy) (f : LogForm) (logs : list LogEntry.t)
  : LogForm * list LogEntry.t :=
  if negb (JsString.truthy (JsString.trim (f_speciesName f)))
     || negb (JsString.truthy (JsString.trim (f_location f)))
  then (f, logs)
  else
    (mkLogForm (f_kind f) (f_date f) "" "" "" "" "",
     addLog en
       (LogDraft.mk (f_date f)
          (JsString.trim (f_speciesName f))
          (JsString.trim (f_location f))
          (trimOrUndefined (f_county f))
          (f_kind f)
          (trimOrUndefined (f_settings f))
          (trimOrUndefined (f_notes f)))
       logs).

(** ** The filtered view *)

(** [!!user[s.id]?.target] *)
Definition isTarget (u : gmap string UserSpecies.t) (i : string) : bool :=
  match u !! i with
  | Some r => UserSpecies.target r
  | None => false
  end.

(** [!!ms[m]] *)
Definition monthOn (ms : Months) (m : string) : bool :=
  match ms !! m with
  | Some b => b
  | None => false
  end.

Definition filtered (species : list Species.t) (u : gmap string UserSpecies.t)
    (q : string) (targetsOnly : bool) (month : string) : list Species.t :=
  let t := JsString.toLowerCase (JsString.trim q) in
  List.filter
    (fun s =>
       if negb (JsString.truthy t) then true
       else
         JsString.includes (JsString.toLowerCase (Species.common s)) t
         || JsString.includes (JsString.toLowerCase (JsString.orEmpty (Species.sci s))) t
         || JsString.includes (JsString.toLowerCase (JsString.orEmpty (Species.family s))) t
         || JsString.includes (JsString.toLowerCase (JsString.orEmpty (Species.habitat s))) t)
    (List.filter
       (fun s =>
          if negb (JsString.truthy month) then true
          else
            match Species.months s with
            | None => true
            | Some ms => monthOn ms month
            end)
       (List.filter
          (fun s => if targetsOnly then isTarget u (Species.id s) else true)
          species)).

(** ** Daily picks *)

(** [x >>> 0] *)
Definition toUint32 (x : Z) : Z := x mod 2 ^ 32.

(** The loop [for (i...) h = (h * 31 + seedStr.charCodeAt(i)) >>> 0] entered
    with accumulator [h] on the remaining characters. *)
Fixpoint hashLoop (h : Z) (s : string) : Z :=
  match s with
  | EmptyString => h
  | String c s' => hashLoop (toUint32 (h * 31 + JsString.charCode c)) s'
  end.

Definition dayHash (seedStr : string) : Z := hashLoop 0 seedStr.

(** [(h ^ a.id.length ^ a.common.length) >>> 0] *)
Definition pickKey (h : Z) (a : Species.t) : Z :=
  toUint32
    (Z.lxor (Z.lxor h (JsString.length (Species.id a)))
       (JsString.length (Species.common a))).

(** [Array.prototype.sort] with a comparator: the sort is stable
    (ECMAScript 2019), so for a consistent comparator its result is the one
    of a stable insertion sort. *)
Section ArraySort.
Context {A : Type} (cmp : A -> A -> Z).

Fixpoint sortInsert (x : A) (l : list A) : list A :=
  match l with
  | [] => [x]
  | y :: l' => if cmp x y <=? 0 then x :: y :: l' else y :: sortInsert x l'
  end.

Definition Array_sort (l : list A) : list A := foldr sortInsert [] l.
End ArraySort.

(** [nowISO] is [new Date().toISOString()] at the time of the computation. *)
Definition todaysPicks (species : list Species.t) (completedIds : list string)
    (month : string) (nowISO : string) : list Species.t :=
  let remaining :=
    List.filter (fun s => negb (Array_includes completedIds (Species.id s))) species in
  let inMonth :=
    List.filter
      (fun s => match Species.months s with
                | Some ms => monthOn ms month
                | None => true
                end)
      remaining in
  let pool := if negb (Z.of_nat (length inMonth) =? 0) then inMonth else remaining in
  let seedStr := String.substring 0 10 nowISO in
  let h := dayHash seedStr in
  let shuffled := Array_sort (fun a b => pickKey h a - pickKey h b) pool in
  firstn 5 shuffled.

(** ** Time values

    A time value is a number of milliseconds since the epoch, as [new Date()]
    holds it.  [toISOString] renders it in UTC with the day arithmetic of
    ECMAScript (Day, DayFromYear, YearFromTime, MonthFromTime,
    DateFromTime); the local calendar day is the day of the time value
    shifted by [getTimezoneOffset()] minutes. *)
Module JsDate.
Definition msPerDay : Z := 86400000.

Definition Day (t : Z) : Z := t / msPerDay.
Definition TimeWithinDay (t : Z) : Z := t mod msPerDay.

Definition DaysInYear (y : Z) : Z :=
  if negb (y mod 4 =? 0) then 365
  else if negb (y mod 100 =? 0) then 366
  else if negb (y mod 400 =? 0) then 365
  else 366.

Definition DayFromYear (y : Z) : Z :=
  365 * (y - 1970) + (y - 1969) / 4 - (y - 1901) / 100 + (y - 1601) / 400.

(** The largest year that starts on or before day [d], searched downwards
    from [y]. *)
Fixpoint yearOnOrBefore (fuel : nat) (y d : Z) : Z :=
  match fuel with
  | O => y
  | S fuel' => if DayFromYear y <=? d then y else yearOnOrBefore fuel' (y - 1) d
  end.

Definition YearFromDay (d : Z) : Z :=
  yearOnOrBefore (Z.to_nat (Z.abs d / 365 + 2)) (1970 + Z.max 0 (d / 365)) d.

(** The day numbers, within a year, on which the twelve months start. *)
Definition monthStarts (y : Z) : list Z :=
  let leap := DaysInYear y - 365 in
  [0; 31; 59 + leap; 90 + leap; 120 + leap; 151 + leap; 181 + leap;
   212 + leap; 243 + leap; 273 + leap; 304 + leap; 334 + leap].

(** Month, from 0, of the day [dayInYear] of year [y]. *)
Definition MonthFromDay (y dayInYear : Z) : Z :=
  Z.of_nat (length (List.filter (fun start => start <=? dayInYear) (monthStarts y))) - 1.

(** Day of the month, from 1. *)
Definition DateFromDay (y dayInYear : Z) : Z :=
  dayInYear - nth (Z.to_nat (MonthFromDay y dayInYear)) (monthStarts y) 0 + 1.

(** The last [k] decimal digits of [n]. *)
Fixpoint padded (k : nat) (n : Z) : string :=
  match k with
  | O => ""
  | S k' => padded k' (n / 10) +:+ String (ascii_of_nat (48 + Z.to_nat (n mod 10))) ""
  end.

Definition yearString (y : Z) : string :=
  if (0 <=? y) && (y <=? 9999) then padded 4 y
  else (if 0 <=? y then "+" else "-") +:+ padded 6 (Z.abs y).

(** [YYYY-MM-DD] of day number [d]. *)
Definition dateString (d : Z) : string :=
  let y := YearFromDay d in
  let dayInYear := d - DayFromYear y in
  yearString y +:+ "-" +:+ padded 2 (MonthFromDay y dayInYear + 1)
  +:+ "-" +:+ padded 2 (DateFromDay y dayInYear).

(** [HH:mm:ss.sss] of the milliseconds [ms] since midnight. *)
Definition timeString (ms : Z) : string :=
  padded 2 (ms / 3600000) +:+ ":" +:+ padded 2 (ms / 60000 mod 60)
  +:+ ":" +:+ padded 2 (ms / 1000 mod 60) +:+ "." +:+ padded 3 (ms mod 1000).

(** [new Date(t).toISOString()] *)
Definition toISOString (t : Z) : string :=
  dateString (Day t) +:+ "T" +:+ timeString (TimeWithinDay t) +:+ "Z".

(** Local time is [offset] minutes behind UTC, [offset] being what
    [getTimezoneOffset()] returns. *)
Definition LocalTime (offset t : Z) : Z := t - offset * 60000.

(** The local calendar day of [t], as a day number and as [YYYY-MM-DD]. *)
Definition localDay (offset t : Z) : Z := Day (LocalTime offset t).
Definition localDate (offset t : Z) : string := dateString (localDay offset t).
End JsDate.

(** ** Numbers

    A finite Number is the rational it denotes.  [Float64.round] is rounding
    to the nearest binary64 value, ties to even, for magnitudes below
    [2^1024] (no overflow to infinity); the subnormal range keeps the fixed
    exponent [-1074]. *)
Module Float64.
Local Open Scope Q_scope.

(** [floor (log2 x)] for [0 < x]. *)
Definition ilog2 (x : Q) : Z :=
  let k := (Z.log2 (Qnum x) - Z.log2 (Zpos (Qden x)))%Z in
  if Qle_bool (2 ^ k) x then k else (k - 1)%Z.

Definition roundHalfEven (x : Q) : Z :=
  let f := Qfloor x in
  match Qcompare (x - inject_Z f) (1 # 2) with
  | Lt => f
  | Gt => (f + 1)%Z
  | Eq => if Z.even f then f else (f + 1)%Z
  end.

(** Exponent of the last place of the binary64 values around [x > 0]. *)
Definition ulpExp (x : Q) : Z := Z.max (ilog2 x - 52) (-1074).

Definition roundPos (x : Q) : Q :=
  inject_Z (roundHalfEven (x / 2 ^ ulpExp x)) * 2 ^ ulpExp x.

Definition round (x : Q) : Q :=
  match Qcompare x 0 with
  | Eq => 0
  | Gt => roundPos x
  | Lt => - roundPos (- x)
  end.

(** Number division and multiplication. *)
Definition div (x y : Q) : Q := round (x / y).
Definition mul (x y : Q) : Q := round (x * y).

(** [Math.round]: the nearest integer, ties towards positive infinity. *)
Definition Math_round (x : Q) : Z := Qfloor (x + (1 # 2)).
End Float64.

(** The same percentage computed by the kernel's binary64 numbers, to test
    [Float64.round] against. *)
Module Binary64.
(** The rational a finite binary64 value denotes. *)
Definition toQ (f : float) : option Q :=
  match Prim2SF f with
  | S754_zero _ => Some 0%Q
  | S754_finite s m e =>
      Some ((if s then - (1) else 1) * inject_Z (Zpos m) * 2 ^ e)%Q
  | _ => None
  end.

Definition ofZ (z : Z) : float := PrimFloat.of_uint63 (Uint63.of_Z z).

(** [(a / b) * 100] *)
Definition percent (a b : Z) : float :=
  PrimFloat.mul (PrimFloat.div (ofZ a) (ofZ b)) (ofZ 100).

Definition agrees (a b : Z) : bool :=
  match toQ (percent a b) with
  | Some q =>
      Qeq_bool q (Float64.mul (Float64.div (inject_Z a) (inject_Z b)) (inject_Z 100))
  | None => false
  end.

(** The pairs [(a, b)] with [0 <= a <= b] and [1 <= b <= n]. *)
Definition pairs (n : nat) : list (Z * Z) :=
  flat_map (fun b => map (fun a => (Z.of_nat a, Z.of_nat (S b))) (seq 0 (S (S b))))
    (seq 0 n).
End Binary64.

(** ** Statistics *)

Record Stats : Type := mkStats {
  total : Z;
  seen : Z;
  targeted : Z;
  pct : Z
}.

(** [Object.values(user)], in some order: only counts are taken of it. *)
Definition Object_values (u : gmap string UserSpecies.t) : list UserSpecies.t :=
  (map_to_list u).*2.

(** Array lengths are below [2^32], so they are Numbers exactly. *)
Definition stats (species : list Species.t) (u : gmap string UserSpecies.t) : Stats :=
  let total := Z.of_nat (length species) in
  let seen := Z.of_nat (length (List.filter UserSpecies.seen (Object_values u))) in
  let targeted := Z.of_nat (length (List.filter UserSpecies.target (Object_values u))) in
  let pct :=
    if negb (total =? 0)
    then Float64.Math_round
           (Float64.mul (Float64.div (inject_Z seen) (inject_Z total)) (inject_Z 100))
    else 0 in
  mkStats total seen targeted pct.

(** * Specification predicates *)

(** The challenge invariant: no duplicate completed identifier, at most 100. *)
Definition challenge_ok (c : ChallengeState.t) : Prop :=
  NoDup (ChallengeState.completedIds c)
  ∧ (length (ChallengeState.completedIds c) ≤ 100)%nat.

(** A string that is empty or made of white space only. *)
Definition blank (s : string) : Prop :=
  Forall (λ c, JsString.isWhiteSpace c = true) (list_ascii_of_string s).

(** The completion percentage as the specification words it,
    round(seen / total × 100) in exact arithmetic: the nearest integer, a
    half rounded up. *)
Definition exactPercent (a b : Z) : Z :=
  Qfloor (inject_Z a / inject_Z b * 100 + (1 # 2))%Q.

(** A string without the separator ["-"], as the hexadecimal digits that
    [Math.random().toString(16).slice(2)] consists of. *)
Definition hyphenFree (s : string) : Prop :=
  Forall (λ c, c ≠ "-"%char) (list_ascii_of_string s).

(** [l'] is exactly the subsequence of [l], in the order of [l], of the
    elements that satisfy [P]. *)
Inductive selects {A : Type} (P : A → Prop) : list A → list A → Prop :=
| selects_nil : selects P [] []
| selects_keep (x : A) (l l' : list A) :
    P x → selects P l l' → selects P (x :: l) (x :: l')
| selects_drop (x : A) (l l' : list A) :
    ¬ P x → selects P l l' → selects P (x :: l) l'.

(** [t] occurs in [s] as a substring. *)
Definition occursIn (t s : string) : Prop :=
  ∃ pre post : string, s = pre +:+ t +:+ post.

(** The case-folded query [t] occurs in the case-folded value of an optional
    property. *)
Definition occursInFolded (t : string) (field : option string) : Prop :=
  ∃ v : string, field = Some v ∧ occursIn t (JsString.toLowerCase v).

(** Condition (1) of the filtered view: with target-only set, the species
    has an annotation whose target flag is true. *)
Definition passTarget (u : gmap string UserSpecies.t) (targetsOnly : bool)
    (s : Species.t) : Prop :=
  targetsOnly = true →
  ∃ r : UserSpecies.t, u !! Species.id s = Some r ∧ UserSpecies.target r = true.

(** Condition (2) as the specification words it: a declared month map has
    the selected month present and true. *)
Definition passMonth_spec (month : string) (s : Species.t) : Prop :=
  ∀ ms : Months, Species.months s = Some ms → ms !! month = Some true.

(** Condition (2) as the code has it: no month filter when the selected
    month is the empty string. *)
Definition passMonth (month : string) (s : Species.t) : Prop :=
  month ≠ "" → passMonth_spec month s.

(** Condition (3): a query that is non-empty once trimmed and case-folded
    occurs in one of the four case-folded properties. *)
Definition passQuery (q : string) (s : Species.t) : Prop :=
  let t := JsString.toLowerCase (JsString.trim q) in
  t ≠ "" →
  occursIn t (JsString.toLowerCase (Species.common s))
  ∨ occursInFolded t (Species.sci s)
  ∨ occursInFolded t (Species.family s)
  ∨ occursInFolded t (Species.habitat s).

(** The [pool] that [todaysPicks] sorts: its first four bindings. *)
Definition picksPool (species : list Species.t) (completedIds : list string)
    (month : string) : list Species.t :=
  let remaining :=
    List.filter (fun s => negb (Array_includes completedIds (Species.id s))) species in
  let inMonth :=
    List.filter
      (fun s => match Species.months s with
                | Some ms => monthOn ms month
                | None => true
                end)
      remaining in
  if negb (Z.of_nat (length inMonth) =? 0) then inMonth else remaining.

(** Month narrowing as the specification words it: the species has a month
    map that holds the selected month as true. *)
Definition inMonth_spec (month : string) (s : Species.t) : Prop :=
  ∃ ms : Months, Species.months s = Some ms ∧ ms !! month = Some true.

(** Month narrowing as the code has it: a species without a month map
    stays. *)
Definition inMonth (month : string) (s : Species.t) : Prop :=
  Species.months s = None ∨ inMonth_spec month s.

(** [picks] is drawn from the pool built in the three stated steps, with
    [narrow] as the month narrowing. *)
Definition drawnFromPool (narrow : Species.t → Prop) (species : list Species.t)
    (completedIds : list string) (picks : list Species.t) : Prop :=
  ∃ candidates narrowed pool : list Species.t,
    selects (λ s, Species.id s ∉ completedIds) species candidates
    ∧ selects narrow candidates narrowed
    ∧ ((narrowed = [] ∧ pool = candidates) ∨ (narrowed ≠ [] ∧ pool = narrowed))
    ∧ (length picks ≤ 5)%nat
    ∧ (length picks ≤ length pool)%nat
    ∧ (∀ s, s ∈ picks → s ∈ pool).

(** * Sample data

    The fallback catalog entry of the page and a few more species, none of
    the latter with a month map. *)
Module Sample.
Definition allYear : Months :=
  list_to_map
    (map (λ m, (m, true))
       ["Jan"; "Feb"; "Mar"; "Apr"; "May"; "Jun";
        "Jul"; "Aug"; "Sep"; "Oct"; "Nov"; "Dec"]).

Definition kite : Species.t :=
  Species.mk "snail-kite" "Snail Kite" (Some "Rostrhamus sociabilis")
    (Some "Accipitridae") (Some "Resident") (Some "Marsh")
    (Some "Paynes Prairie (La Chua)") (Some allYear).

Definition plain (i common : string) : Species.t :=
  Species.mk i common None None None None None None.

Definition jay : Species.t := plain "florida-scrub-jay" "Florida Scrub-Jay".
Definition spoonbill : Species.t := plain "roseate-spoonbill" "Roseate Spoonbill".
Definition falcon : Species.t := plain "peregrine-falcon" "Peregrine Falcon".
Definition owl : Species.t := plain "barred-owl" "Barred Owl".
Definition limpkin : Species.t := plain "limpkin" "Limpkin".
Definition eagle : Species.t := plain "bald-eagle" "Bald Eagle".

Definition catalog : list Species.t :=
  [kite; jay; spoonbill; falcon; owl; limpkin; eagle].

(** Annotations: two species seen, one of them also a target. *)
Definition annotations : gmap string UserSpecies.t :=
  <["snail-kite" := UserSpecies.mk "snail-kite" true true (Some "2024-01-05")
                      (Some "La Chua") None None]>
    (<["limpkin" := UserSpecies.mk "limpkin" true false None None None None]> ∅).

(** A catalog of [n] numbered species, and the annotations of a user who
    has seen each species of a list. *)
Definition numbered (n : nat) : list Species.t :=
  map (λ i, plain ("species-" +:+ toString16 (N.of_nat i))
              ("Species " +:+ toString16 (N.of_nat i)))
    (seq 0 n).

Definition seenAll (l : list Species.t) : gmap string UserSpecies.t :=
  list_to_map
    (map (λ s, (Species.id s,
                UserSpecies.mk (Species.id s) true false None None None None))
       l).

(** Two instants of one day and one of the next. *)
Definition morning : string := "2024-01-05T08:15:00.000Z".
Definition evening : string := "2024-01-05T19:40:00.000Z".
Definition nextDay : string := "2024-01-06T08:15:00.000Z".

(** A catalog that supplies its own six-letter identifiers. *)
Definition coded : list Species.t :=
  [plain "osprey" "Osprey"; plain "limpki" "Limpkin"].

(** Two time values of one evening in Florida, where [getTimezoneOffset()]
    is 300 in winter: 18:30 and 19:30 local time on 5 January 2024. *)
Definition eastern : Z := 300.
Definition halfPastSix : Z := 1704497400000.
Definition halfPastSeven : Z := 1704501000000.
End Sample.

(** * Further operations of the page *)

(** ** Identifiers derived from names *)

(** The units that [/[^a-z0-9]+/] does not match. *)
Definition isSlugUnit (c : ascii) : bool :=
  let n := JsString.charCode c in
  ((97 <=? n) && (n <=? 122)) || ((48 <=? n) && (n <=? 57)).

(** [s.replace(/[^a-z0-9]+/g, "-")], read from left to right: [inRun]
    tells that the unit before was part of a run already replaced. *)
Fixpoint collapseRuns (inRun : bool) (s : string) : string :=
  match s with
  | EmptyString => EmptyString
  | String c s' =>
      if isSlugUnit c then String c (collapseRuns false s')
      else if inRun then collapseRuns true s'
      else String "-" (collapseRuns true s')
  end.

(** [s.replace(/(^-|-$)/g, "")]: the match at the start, then the match at
    the end of what follows it. *)
Definition stripLeadingHyphen (s : string) : string :=
  match s with
  | String c s' => if bool_decide (c = "-"%char) then s' else s
  | EmptyString => EmptyString
  end.

Fixpoint stripTrailingHyphen (s : string) : string :=
  match s with
  | EmptyString => EmptyString
  | String c EmptyString => if bool_decide (c = "-"%char) then EmptyString else s
  | String c s' => String c (stripTrailingHyphen s')
  end.

Definition slugify (s : string) : string :=
  stripTrailingHyphen
    (stripLeadingHyphen (collapseRuns false (JsString.toLowerCase s))).

(** ** Loading the catalog *)

(** A record of [florida_birds.json]: a species whose [id] may be missing
    or empty. *)
Module RawSpecies.
Record t : Type := mk {
  id : option string;
  common : string;
  sci : option string;
  family : option string;
  season : option string;
  habitat : option string;
  bestSpot : option string;
  months : option Months
}.
End RawSpecies.

(** [{ ...s, id: s.id || slugify(s.common) }] *)
Definition normalizeSpecies (s : RawSpecies.t) : Species.t :=
  Species.mk
    (match RawSpecies.id s with
     | Some i => if JsString.truthy i then i else slugify (RawSpecies.common s)
     | None => slugify (RawSpecies.common s)
     end)
    (RawSpecies.common s) (RawSpecies.sci s) (RawSpecies.family s)
    (RawSpecies.season s) (RawSpecies.habitat s) (RawSpecies.bestSpot s)
    (RawSpecies.months s).

(** The catalog set when the fetch or its decoding fails. *)
Definition fallbackSpecies : list Species.t :=
  [Species.mk "snail-kite" "Snail Kite" (Some "Rostrhamus sociabilis")
     (Some "Accipitridae") (Some "Resident") (Some "Marsh")
     (Some "Paynes Prairie (La Chua)")
     (Some (list_to_map
              [("Jan", true); ("Feb", true); ("Mar", true); ("Apr", true);
               ("May", true); ("Jun", true); ("Jul", true); ("Aug", true);
               ("Sep", true); ("Oct", true); ("Nov", true); ("Dec", true)]))].

(** The catalog the load effect sets: [response] is the decoded array of a
    successful fetch, [None] when the fetch, its status or the decoding
    throws. *)
Definition loadSpecies (response : option (list RawSpecies.t)) : list Species.t :=
  match response with
  | Some data => List.map normalizeSpecies data
  | None => fallbackSpecies
  end.

(** ** Navigation *)

Inductive Route : Type := RHome | RList | RDetail | RLogs | RChallenge.

Record Nav : Type := mkNav {
  route : Route;
  activeId : option string
}.

(** [species.find((s) => s.id === activeId) || null] *)
Definition activeSpecies (species : list Species.t) (nav : Nav) : option Species.t :=
  match activeId nav with
  | Some i => List.find (fun s => bool_decide (Species.id s = i)) species
  | None => None
  end.

Definition openDetail (i : string) (nav : Nav) : Nav := mkNav RDetail (Some i).

(** The screen [Page] returns. *)
Inductive Screen : Type :=
| DetailScreen (s : Species.t)
| LogsScreen
| ChallengeScreen
| ListScreen
| HomeScreen.

Definition screen (species : list Species.t) (nav : Nav) : Screen :=
  match route nav, activeSpecies species nav with
  | RDetail, Some s => DetailScreen s
  | _, _ =>
      match route nav with
      | RLogs => LogsScreen
      | RChallenge => ChallengeScreen
      | RList => ListScreen
      | _ => HomeScreen
      end
  end.

(** ** Editing an annotation on the detail screen *)

Inductive Field : Type := FDate | FCounty | FLocation | FNotes.

(** [{ ...u, date: v }] and its three siblings. *)
Definition with_field (f : Field) (v : string) (u : UserSpecies.t) : UserSpecies.t :=
  match f with
  | FDate =>
      UserSpecies.mk (UserSpecies.id u) (UserSpecies.seen u) (UserSpecies.target u)
        (Some v) (UserSpecies.location u) (UserSpecies.county u) (UserSpecies.notes u)
  | FCounty =>
      UserSpecies.mk (UserSpecies.id u) (UserSpecies.seen u) (UserSpecies.target u)
        (UserSpecies.date u) (UserSpecies.location u) (Some v) (UserSpecies.notes u)
  | FLocation =>
      UserSpecies.mk (UserSpecies.id u) (UserSpecies.seen u) (UserSpecies.target u)
        (UserSpecies.date u) (Some v) (UserSpecies.county u) (UserSpecies.notes u)
  | FNotes =>
      UserSpecies.mk (UserSpecies.id u) (UserSpecies.seen u) (UserSpecies.target u)
        (UserSpecies.date u) (UserSpecies.location u) (UserSpecies.county u) (Some v)
  end.

(** The [onChange] of the four inputs, for the active species [i] and the
    typed value [v]. *)
Definition setField (f : Field) (i v : string) (st : State) : State :=
  let u := ensureUserRow (user st) i in
  mkState (<[i := with_field f v u]> (user st)) (challenge st).

(** The property of the record that field [f] names: [u.date] and its
    siblings, [None] where the property is absent. *)
Definition fieldOf (f : Field) (u : UserSpecies.t) : option string :=
  match f with
  | FDate => UserSpecies.date u
  | FCounty => UserSpecies.county u
  | FLocation => UserSpecies.location u
  | FNotes => UserSpecies.notes u
  end.

(** What the input of field [f] shows: [u.date || ""] and its siblings. *)
Definition shownField (f : Field) (u : UserSpecies.t) : string :=
  JsString.orEmpty (fieldOf f u).

(** The month badge of the detail screen:
    [active.months ? !!active.months[m] : false]. *)
Definition monthBadge (s : Species.t) (m : string) : bool :=
  match Species.months s with
  | Some ms => monthOn ms m
  | None => false
  end.

(** ** Challenge progress *)

Definition challengeProgress (c : ChallengeState.t) : Z :=
  Z.of_nat (length (ChallengeState.completedIds c)).

(** [Math.min(100, Math.round((challengeProgress / 100) * 100))] *)
Definition challengePct (c : ChallengeState.t) : Z :=
  Z.min 100
    (Float64.Math_round
       (Float64.mul (Float64.div (inject_Z (challengeProgress c)) (inject_Z 100))
          (inject_Z 100))).

(** Events that clear the completed list. *)
Definition clears (e : Event) : bool :=
  match e with
  | EStart _ | EReset => true
  | _ => false
  end.

(** ** Persistence

    [localStorage] is a finite map from keys to texts.  [JSON.stringify] and
    [JSON.parse] at the type of the stored value are parameters; [parse]
    gives [None] where [JSON.parse] throws. *)
Definition LS_KEY : string := "fbq_user_v1".
Definition LS_LOGS : string := "fbq_logs_v1".
Definition LS_CHALLENGE : string := "fbq_challenge_v1".

Section Json.
Context {T : Type} (stringify : T -> string) (parse : string -> option T).


End Json.


Definition isJsonSpace (c : ascii) : bool :=
  let n := JsString.charCode c in
  (n =? 32) || (n =? 9) || (n =? 10) || (n =? 13).

Fixpoint skipJsonSpace (s : string) : string :=
  match s with
  | String c s' => if isJsonSpace c then skipJsonSpace s' else s
  | EmptyString => EmptyString
  end.

Definition parseBool (s : string) : option bool :=
  let s := skipJsonSpace s in
  if JsString.startsWith s "true"
     && bool_decide (skipJsonSpace (String.substring 4 (String.length s - 4) s) = "")
  then Some true
  else if JsString.startsWith s "false"
          && bool_decide (skipJsonSpace (String.substring 5 (String.length s - 5) s) = "")
  then Some false
  else None.

(** ** Sessions of the log form *)

(** Submissions one after the other: before each, the user has brought the
    form to the given fields. *)
Definition submitAll (subs : list (Entropy * LogForm)) (logs : list LogEntry.t)
  : list LogEntry.t :=
  fold_left (fun l s => (onSubmit s.1 s.2 l).2) subs logs.

(** * Further specification predicates *)

(** Shape of what [collapseRuns] builds: slug units and hyphens, no hyphen
    after a hyphen, and no hyphen first when [afterHyphen] is set. *)
Fixpoint hyphenated (afterHyphen : bool) (s : string) : Prop :=
  match s with
  | EmptyString => True
  | String c s' =>
      (isSlugUnit c = true ∨ c = "-"%char)
      ∧ (afterHyphen = true → c ≠ "-"%char)
      ∧ hyphenated (bool_decide (c = "-"%char)) s'
  end.

(** A stored log entry as the form produces it: species name and location
    are trimmed and not blank, the optional fields are trimmed and, when
    present, not empty. *)
Definition trimmedOption (o : option string) : Prop :=
  ∀ v : string, o = Some v → v ≠ "" ∧ JsString.trim v = v.

Definition wellFormedEntry (e : LogEntry.t) : Prop :=
  ¬ blank (LogEntry.speciesName e)
  ∧ ¬ blank (LogEntry.location e)
  ∧ JsString.trim (LogEntry.speciesName e) = LogEntry.speciesName e
  ∧ JsString.trim (LogEntry.location e) = LogEntry.location e
  ∧ trimmedOption (LogEntry.county e)
  ∧ trimmedOption (LogEntry.settings e)
  ∧ trimmedOption (LogEntry.notes e).

(** What distinguishes two generated identifiers: the random digits and the
    clock value. *)
Definition entropyKey (en : Entropy) : string * N :=
  (slice2 (random16 en), now en).

(** * Properties *)

(** ** Toggles *)

Lemma ensureUserRow_insert (u : gmap string UserSpecies.t) (i : string) (r : UserSpecies.t) :
  ensureUserRow (<[i := r]> u) i = r.
Proof. unfold ensureUserRow. by rewrite lookup_insert_eq. Qed.

Lemma ensureUserRow_insert_ne (u : gmap string UserSpecies.t) (i j : string) (r : UserSpecies.t) :
  i ≠ j → ensureUserRow (<[i := r]> u) j = ensureUserRow u j.
Proof. intros Hij. unfold ensureUserRow. by rewrite lookup_insert_ne. Qed.

Lemma toggleSeen_user (i : string) (st : State) :
  user (toggleSeen i st)
  = <[i := UserSpecies.with_seen (negb (UserSpecies.seen (ensureUserRow (user st) i)))
            (ensureUserRow (user st) i)]> (user st).
Proof.
  unfold toggleSeen.
  destruct (negb (ChallengeState.active (challenge st))); [done|].
  by destruct (_ && _ && _).
Qed.

Lemma Array_includes_true (xs : list string) (x : string) :
  Array_includes xs x = true ↔ x ∈ xs.
Proof. unfold Array_includes. apply bool_decide_eq_true. Qed.

Lemma Array_includes_false (xs : list string) (x : string) :
  Array_includes xs x = false ↔ x ∉ xs.
Proof. unfold Array_includes. apply bool_decide_eq_false. Qed.

(** The challenge after [toggleSeen] is the old one, or the old one with
    the toggled identifier pushed. *)
Lemma toggleSeen_challenge_cases (i : string) (st : State) :
  challenge (toggleSeen i st) = challenge st
  ∨ (ChallengeState.active (challenge st) = true
     ∧ UserSpecies.seen (ensureUserRow (user st) i) = false
     ∧ (i ∉ ChallengeState.completedIds (challenge st))
     ∧ (length (ChallengeState.completedIds (challenge st)) < 100)%nat
     ∧ challenge (toggleSeen i st) = ChallengeState.push i (challenge st)).
Proof.
  unfold toggleSeen.
  destruct (ChallengeState.active (challenge st)) eqn:Hact; simpl; [|by left].
  destruct (UserSpecies.seen (ensureUserRow (user st) i)) eqn:Hseen; simpl; [by left|].
  destruct (Array_includes _ i) eqn:Hinc; simpl; [by left|].
  destruct (Z.ltb_spec (Z.of_nat (length (ChallengeState.completedIds (challenge st)))) 100);
    [|by left].
  right. apply Array_includes_false in Hinc. repeat split; [done|lia].
Qed.

(** C4.  Auto-count on seen: a not-seen to seen toggle in an active
    challenge appends the identifier when it is not yet completed and fewer
    than 100 are; a seen to not-seen toggle leaves the completed list as it
    was, so it removes nothing; with an inactive challenge the challenge
    state stays the same. *)
Theorem toggleSeen_auto_count (i : string) (st : State) :
  (UserSpecies.seen (ensureUserRow (user st) i) = false →
   ChallengeState.active (challenge st) = true →
   i ∉ ChallengeState.completedIds (challenge st) →
   (length (ChallengeState.completedIds (challenge st)) < 100)%nat →
   UserSpecies.seen (ensureUserRow (user (toggleSeen i st)) i) = true
   ∧ ChallengeState.completedIds (challenge (toggleSeen i st))
     = (ChallengeState.completedIds (challenge st) ++ [i])%list
   ∧ ChallengeState.active (challenge (toggleSeen i st)) = true
   ∧ ChallengeState.startedAt (challenge (toggleSeen i st))
     = ChallengeState.startedAt (challenge st))
  ∧ (UserSpecies.seen (ensureUserRow (user st) i) = true →
     UserSpecies.seen (ensureUserRow (user (toggleSeen i st)) i) = false
     ∧ challenge (toggleSeen i st) = challenge st
     ∧ ∀ j, j ∈ ChallengeState.completedIds (challenge st) →
            j ∈ ChallengeState.completedIds (challenge (toggleSeen i st)))
  ∧ (ChallengeState.active (challenge st) = false →
     challenge (toggleSeen i st) = challenge st).
Proof.
  split; [|split].
  - intros Hseen Hact Hnin Hlen.
    split.
    { rewrite toggleSeen_user, ensureUserRow_insert. simpl. by rewrite Hseen. }
    unfold toggleSeen. rewrite Hact, Hseen. simpl.
    apply Array_includes_false in Hnin. rewrite Hnin. simpl.
    destruct (Z.ltb_spec (Z.of_nat (length (ChallengeState.completedIds (challenge st)))) 100);
      [done|lia].
  - intros Hseen.
    split.
    { rewrite toggleSeen_user, ensureUserRow_insert. simpl. by rewrite Hseen. }
    destruct (toggleSeen_challenge_cases i st) as [Heq|(_ & Hs & _)]; [|congruence].
    split; [done|]. intros j Hj. by rewrite Heq.
  - intros Hact.
    destruct (toggleSeen_challenge_cases i st) as [Heq|(Ha & _)]; [done|congruence].
Qed.

(** An active challenge with one completed species: marking the limpkin
    seen counts it, and unmarking it afterwards keeps it counted. *)
Example toggleSeen_ratchet :
  let st := startChallenge Sample.morning initialState in
  ChallengeState.completedIds (challenge (toggleSeen "limpkin" st)) = ["limpkin"]
  ∧ ChallengeState.completedIds
      (challenge (toggleSeen "limpkin" (toggleSeen "limpkin" st))) = ["limpkin"]
  ∧ ChallengeState.completedIds
      (challenge (toggleSeen "limpkin" initialState)) = [].
Proof. by vm_compute. Qed.

(** ** The challenge invariant *)

Lemma challenge_ok_push (i : string) (c : ChallengeState.t) :
  challenge_ok c →
  i ∉ ChallengeState.completedIds c →
  (length (ChallengeState.completedIds c) < 100)%nat →
  challenge_ok (ChallengeState.push i c).
Proof.
  intros [Hnd Hlen] Hnin Hlt. split; simpl.
  - apply NoDup_app. split_and!; [done| |apply NoDup_singleton].
    intros x Hx Hx'. apply list_elem_of_singleton in Hx'. by subst.
  - rewrite length_app. simpl. lia.
Qed.

Lemma challenge_ok_empty (a : bool) (t : option string) :
  challenge_ok (ChallengeState.mk a t []).
Proof. split; simpl; [constructor|lia]. Qed.

Lemma countPick_challenge_cases (i : string) (st : State) :
  challenge (countPick i st) = challenge st
  ∨ (ChallengeState.active (challenge st) = true
     ∧ (i ∉ ChallengeState.completedIds (challenge st))
     ∧ (length (ChallengeState.completedIds (challenge st)) < 100)%nat
     ∧ challenge (countPick i st) = ChallengeState.push i (challenge st)).
Proof.
  unfold countPick.
  destruct (ChallengeState.active (challenge st)) eqn:Hact; simpl; [|by left].
  destruct (Array_includes _ i) eqn:Hinc; simpl; [by left|].
  destruct (Z.geb_spec (Z.of_nat (length (ChallengeState.completedIds (challenge st)))) 100);
    [by left|].
  right. apply Array_includes_false in Hinc. repeat split; [done|lia].
Qed.

Lemma step_challenge_ok (st : State) (e : Event) :
  challenge_ok (challenge st) → challenge_ok (challenge (step st e)).
Proof.
  intros Hok. destruct e as [i|i|i|t|]; simpl.
  - destruct (toggleSeen_challenge_cases i st) as [->|(_ & _ & Hnin & Hlt & ->)];
      [done|by apply challenge_ok_push].
  - done.
  - destruct (countPick_challenge_cases i st) as [->|(_ & Hnin & Hlt & ->)];
      [done|by apply challenge_ok_push].
  - apply challenge_ok_empty.
  - apply challenge_ok_empty.
Qed.

Lemma run_challenge_ok (es : list Event) (st : State) :
  challenge_ok (challenge st) → challenge_ok (challenge (run es st)).
Proof.
  revert st. induction es as [|e es IH]; intros st Hok; simpl; [done|].
  apply IH. by apply step_challenge_ok.
Qed.

(** C5.  From the empty challenge state, whatever the annotations, every
    sequence of toggle-seen, toggle-target, count, start and reset events
    ends in a state whose completed list has no duplicate and at most 100
    members, and one more event of any kind keeps it so. *)
Theorem challenge_invariant (u : gmap string UserSpecies.t) (es : list Event) (e : Event) :
  let st := run es (mkState u initialChallenge) in
  NoDup (ChallengeState.completedIds (challenge st))
  ∧ (length (ChallengeState.completedIds (challenge st)) ≤ 100)%nat
  ∧ NoDup (ChallengeState.completedIds (challenge (step st e)))
  ∧ (length (ChallengeState.completedIds (challenge (step st e))) ≤ 100)%nat.
Proof.
  intros st.
  assert (Hok : challenge_ok (challenge st)).
  { apply run_challenge_ok. apply challenge_ok_empty. }
  destruct (step_challenge_ok st e Hok) as [? ?].
  destruct Hok as [? ?]. done.
Qed.

(** C8.  Toggling seen twice gives back the annotation read before the two
    toggles, in particular its seen flag; and the same for target. *)
Theorem toggle_twice (i : string) (st : State) :
  UserSpecies.seen (ensureUserRow (user (toggleSeen i (toggleSeen i st))) i)
  = UserSpecies.seen (ensureUserRow (user st) i)
  ∧ ensureUserRow (user (toggleSeen i (toggleSeen i st))) i = ensureUserRow (user st) i
  ∧ UserSpecies.target (ensureUserRow (user (toggleTarget i (toggleTarget i st))) i)
    = UserSpecies.target (ensureUserRow (user st) i)
  ∧ ensureUserRow (user (toggleTarget i (toggleTarget i st))) i = ensureUserRow (user st) i.
Proof.
  assert (Hs : ensureUserRow (user (toggleSeen i (toggleSeen i st))) i
               = ensureUserRow (user st) i).
  { rewrite !toggleSeen_user, !ensureUserRow_insert.
    destruct (ensureUserRow (user st) i) as [? [] ? ? ? ? ?]; reflexivity. }
  assert (Ht : ensureUserRow (user (toggleTarget i (toggleTarget i st))) i
               = ensureUserRow (user st) i).
  { unfold toggleTarget. simpl. rewrite !ensureUserRow_insert.
    destruct (ensureUserRow (user st) i) as [? ? [] ? ? ? ?]; reflexivity. }
  by rewrite Hs, Ht.
Qed.

(** C10.  [toggleTarget] stores for its identifier the annotation read
    before (the default row with seen false when there was none) with the
    target flag negated and every other field as it was; the entries of all
    other identifiers and the challenge state are untouched. *)
Theorem toggleTarget_frame (i : string) (st : State) :
  let r := ensureUserRow (user st) i in
  let st' := toggleTarget i st in
  (∃ r', user st' !! i = Some r'
         ∧ UserSpecies.target r' = negb (UserSpecies.target r)
         ∧ UserSpecies.id r' = UserSpecies.id r
         ∧ UserSpecies.seen r' = UserSpecies.seen r
         ∧ UserSpecies.date r' = UserSpecies.date r
         ∧ UserSpecies.location r' = UserSpecies.location r
         ∧ UserSpecies.county r' = UserSpecies.county r
         ∧ UserSpecies.notes r' = UserSpecies.notes r
         ∧ (user st !! i = None →
            r' = UserSpecies.mk i false true None None None None))
  ∧ (∀ j, j ≠ i → user st' !! j = user st !! j)
  ∧ challenge st' = challenge st
  ∧ ChallengeState.active (challenge st') = ChallengeState.active (challenge st)
  ∧ ChallengeState.startedAt (challenge st') = ChallengeState.startedAt (challenge st)
  ∧ ChallengeState.completedIds (challenge st') = ChallengeState.completedIds (challenge st).
Proof.
  intros r st'. subst st'. unfold toggleTarget. simpl.
  split; [|split; [|done]].
  - eexists. rewrite lookup_insert_eq. split; [done|]. simpl.
    repeat split. intros Hnone. subst r. unfold ensureUserRow. by rewrite Hnone.
  - intros j Hj. by rewrite lookup_insert_ne.
Qed.

(** ** Trimming *)

Lemma blank_nil : blank "".
Proof. constructor. Qed.

Lemma blank_cons (c : ascii) (s : string) :
  blank (String c s) ↔ JsString.isWhiteSpace c = true ∧ blank s.
Proof. unfold blank. simpl. apply Forall_cons_iff. Qed.

Lemma trimStart_empty (s : string) : JsString.trimStart s = "" ↔ blank s.
Proof.
  induction s as [|c s IH]; simpl.
  - split; [intros _; apply blank_nil|done].
  - rewrite blank_cons. destruct (JsString.isWhiteSpace c).
    + rewrite IH. split; [by intros ?|by intros [_ ?]].
    + split; [done|]. by intros [? _].
Qed.

Lemma trimStart_head (s : string) (c : ascii) (r : string) :
  JsString.trimStart s = String c r → JsString.isWhiteSpace c = false.
Proof.
  induction s as [|a s IH]; simpl; [done|].
  destruct (JsString.isWhiteSpace a) eqn:Ha; [done|]. congruence.
Qed.

Lemma trimEnd_empty (s : string) : JsString.trimEnd s = "" ↔ blank s.
Proof.
  induction s as [|c s IH]; simpl.
  - split; [intros _; apply blank_nil|done].
  - rewrite blank_cons. destruct (JsString.trimEnd s) eqn:Hs.
    + destruct (JsString.isWhiteSpace c).
      { rewrite <- IH. split; [by intros ?|by intros [_ ?]]. }
      split; [done|]. by intros [? _].
    + split; [done|]. intros [_ Hb]. by apply IH in Hb.
Qed.

(** [trim] gives the empty string exactly on blank strings. *)
Lemma trim_empty (s : string) : JsString.trim s = "" ↔ blank s.
Proof.
  unfold JsString.trim. rewrite trimEnd_empty. split.
  - intros Hb. apply trimStart_empty.
    destruct (JsString.trimStart s) as [|c r] eqn:Hs; [done|].
    apply trimStart_head in Hs. apply blank_cons in Hb as [Hc _]. congruence.
  - intros Hb. apply trimStart_empty in Hb. rewrite Hb. apply blank_nil.
Qed.

Lemma truthy_trim (s : string) :
  JsString.truthy (JsString.trim s) = true ↔ ¬ blank s.
Proof.
  unfold JsString.truthy. rewrite negb_true_iff, bool_decide_eq_false.
  by rewrite trim_empty.
Qed.

Lemma falsy_trim (s : string) :
  JsString.truthy (JsString.trim s) = false ↔ blank s.
Proof.
  unfold JsString.truthy. rewrite negb_false_iff, bool_decide_eq_true.
  by rewrite trim_empty.
Qed.

(** ** Generated identifiers *)

Lemma toString16_inj (n m : N) : toString16 n = toString16 m → n = m.
Proof.
  unfold toString16. intros Heq.
  apply HexadecimalN.Unsigned.to_uint_inj.
  assert (Hnil : ∀ k, N.to_hex_uint k ≠ Hexadecimal.Nil).
  { intros [|p]; [done|]. simpl. intros Hp.
    pose proof (HexadecimalPos.Unsigned.of_to p) as Hof.
    rewrite Hp in Hof. done. }
  pose proof (HexadecimalString.NilZero.usu (N.to_hex_uint n) (Hnil n)) as Hn.
  pose proof (HexadecimalString.NilZero.usu (N.to_hex_uint m) (Hnil m)) as Hm.
  rewrite Heq in Hn. congruence.
Qed.

Lemma hyphen_split (r1 r2 t1 t2 : string) :
  hyphenFree r1 → hyphenFree r2 →
  r1 +:+ "-" +:+ t1 = r2 +:+ "-" +:+ t2 → r1 = r2 ∧ t1 = t2.
Proof.
  unfold hyphenFree. revert r2.
  induction r1 as [|a r1 IH]; intros [|b r2] H1 H2 Heq; simpl in *.
  - injection Heq as Heq. by subst.
  - injection Heq as Hb _. apply Forall_cons_iff in H2 as [Hne _]. congruence.
  - injection Heq as Ha _. apply Forall_cons_iff in H1 as [Hne _]. congruence.
  - injection Heq as Hab Heq. subst b.
    apply Forall_cons_iff in H1 as [_ H1]. apply Forall_cons_iff in H2 as [_ H2].
    destruct (IH r2 H1 H2 Heq) as [-> ->]. done.
Qed.

(** Identifiers generated with one prefix coincide only when both the
    random digits and the clock value do. *)
Lemma uid_inj (prefix : string) (en1 en2 : Entropy) :
  hyphenFree (slice2 (random16 en1)) → hyphenFree (slice2 (random16 en2)) →
  uid prefix en1 = uid prefix en2 →
  slice2 (random16 en1) = slice2 (random16 en2) ∧ now en1 = now en2.
Proof.
  intros H1 H2 Heq. unfold uid in Heq.
  apply (inj (String.app prefix)) in Heq.
  apply (inj (String.app "-")) in Heq.
  destruct (hyphen_split _ _ _ _ H1 H2 Heq) as [Hr Ht].
  split; [done|by apply toString16_inj].
Qed.

(** ** The log form *)

(** C9 (as amended).  Submitting the log form with a blank species name or
    a blank location changes neither the form nor the log sequence;
    otherwise the sequence becomes one new entry followed by the previous
    sequence, the new entry carrying the identifier that [uid] generates
    from the random digits and the clock value, and the trimmed species name
    and location.  That identifier differs from any identifier [uid]
    generates from other random digits or another clock value; it is fresh,
    different from every stored identifier, when each stored identifier was
    generated from other random digits or at another clock value. *)
Theorem onSubmit_append (en : Entropy) (f : LogForm) (logs : list LogEntry.t) :
  (blank (f_speciesName f) ∨ blank (f_location f) →
   onSubmit en f logs = (f, logs)
   ∧ length (onSubmit en f logs).2 = length logs)
  ∧ (¬ blank (f_speciesName f) → ¬ blank (f_location f) →
     ∃ e : LogEntry.t,
       (onSubmit en f logs).2 = e :: logs
       ∧ length (onSubmit en f logs).2 = S (length logs)
       ∧ LogEntry.id e = uid "log" en
       ∧ LogEntry.speciesName e = JsString.trim (f_speciesName f)
       ∧ LogEntry.location e = JsString.trim (f_location f)
       ∧ LogEntry.date e = f_date f
       ∧ LogEntry.kind e = f_kind f
       ∧ LogEntry.county e = trimOrUndefined (f_county f)
       ∧ LogEntry.settings e = trimOrUndefined (f_settings f)
       ∧ LogEntry.notes e = trimOrUndefined (f_notes f)
       ∧ (∀ en0 : Entropy,
            hyphenFree (slice2 (random16 en)) →
            hyphenFree (slice2 (random16 en0)) →
            slice2 (random16 en0) ≠ slice2 (random16 en) ∨ now en0 ≠ now en →
            uid "log" en0 ≠ LogEntry.id e)
       ∧ (hyphenFree (slice2 (random16 en)) →
          (∀ e0 : LogEntry.t,
             e0 ∈ logs →
             ∃ en0 : Entropy,
               LogEntry.id e0 = uid "log" en0
               ∧ hyphenFree (slice2 (random16 en0))
               ∧ (slice2 (random16 en0) ≠ slice2 (random16 en) ∨ now en0 ≠ now en)) →
          LogEntry.id e ∉ LogEntry.id <$> logs)).
Proof.
  split.
  - intros Hb. unfold onSubmit.
    assert (Hc : negb (JsString.truthy (JsString.trim (f_speciesName f)))
                 || negb (JsString.truthy (JsString.trim (f_location f))) = true).
    { apply orb_true_iff. rewrite !negb_true_iff, !falsy_trim. done. }
    by rewrite Hc.
  - intros Hs Hl. unfold onSubmit.
    apply truthy_trim in Hs, Hl. rewrite Hs, Hl. simpl.
    eexists. split; [reflexivity|]. simpl. split_and!; try done.
    + intros en0 Hen Hen0 Hdiff Heq.
      destruct (uid_inj "log" en0 en Hen0 Hen Heq) as [Hr Ht].
      destruct Hdiff as [Hd|Hd]; contradiction.
    + intros Hen Hstore (e0 & Heq & He0)%list_elem_of_fmap.
      destruct (Hstore e0 He0) as (en0 & Hid & Hen0 & Hdiff).
      rewrite Hid in Heq.
      destruct (uid_inj "log" en en0 Hen Hen0 Heq) as [Hr Ht].
      destruct Hdiff as [Hd|Hd]; congruence.
Qed.

(** C9 as stated fails: the identifier need not be fresh.  A second
    submission that draws the same random digits in the same millisecond
    stores a second entry under the identifier of the first. *)
Lemma onSubmit_fresh_counterexample :
  let en := mkEntropy "0.8f3a" 1700000000000 in
  let f := mkLogForm Raptors "2024-01-05" "Snail Kite" "La Chua" "" "" "" in
  let logs := (onSubmit en f []).2 in
  LogEntry.id <$> logs = ["log-8f3a-18bcfe56800"]
  ∧ LogEntry.id <$> (onSubmit en f logs).2
    = ["log-8f3a-18bcfe56800"; "log-8f3a-18bcfe56800"]
  ∧ ∃ e : LogEntry.t,
      (onSubmit en f logs).2 = e :: logs
      ∧ LogEntry.id e ∈ LogEntry.id <$> logs.
Proof.
  intros en f logs. split_and!; [reflexivity|reflexivity|].
  eexists. split; [reflexivity|]. simpl. left.
Qed.

(** [addLog] on its own prepends whatever draft it is given. *)
Lemma addLog_prepends (en : Entropy) (entry : LogDraft.t) (logs : list LogEntry.t) :
  addLog en entry logs = LogDraft.with_id (uid "log" en) entry :: logs.
Proof. reflexivity. Qed.

(** Spec example: a log append with an empty species name. *)
Example onSubmit_empty_species :
  let f := mkLogForm General "2024-01-05" "" "La Chua" "" "" "" in
  (onSubmit (mkEntropy "0.8f3a" 1700000000000) f []).2 = [].
Proof. reflexivity. Qed.

Example onSubmit_filled :
  let f := mkLogForm Raptors "2024-01-05" " Snail Kite " "La Chua " "" " f/8" "" in
  (onSubmit (mkEntropy "0.8f3a" 1700000000000) f []).2
  = [LogEntry.mk "log-8f3a-18bcfe56800" "2024-01-05" "Snail Kite" "La Chua" None
       Raptors (Some "f/8") None].
Proof. reflexivity. Qed.

(** ** Substrings *)

Lemma startsWith_spec (s t : string) :
  JsString.startsWith s t = true ↔ ∃ post : string, s = t +:+ post.
Proof.
  revert s. induction t as [|b t IH]; intros s.
  - destruct s; simpl; split; eauto.
  - destruct s as [|a s]; simpl.
    + split; [done|]. by intros [post ?].
    + rewrite andb_true_iff, bool_decide_eq_true, IH. split.
      * intros [-> [post ->]]. by exists post.
      * intros [post [= -> ->]]. eauto.
Qed.

Lemma includes_spec (s t : string) :
  JsString.includes s t = true ↔ occursIn t s.
Proof.
  unfold occursIn. induction s as [|a s IH].
  - change (JsString.includes "" t) with (JsString.startsWith "" t || false).
    rewrite orb_false_r, startsWith_spec. split.
    + intros [post ->]. by exists "", post.
    + intros (pre & post & Heq). destruct pre; [|done]. by exists post.
  - change (JsString.includes (String a s) t)
      with (JsString.startsWith (String a s) t || JsString.includes s t).
    rewrite orb_true_iff, startsWith_spec, IH. split.
    + intros [[post ->]|(pre & post & ->)].
      * by exists "", post.
      * by exists (String a pre), post.
    + intros (pre & post & Heq). destruct pre as [|b pre]; simpl in Heq.
      * left. by exists post.
      * right. injection Heq as -> ->. by exists pre, post.
Qed.

Lemma includes_orEmpty (o : option string) (t : string) :
  t ≠ "" →
  JsString.includes (JsString.toLowerCase (JsString.orEmpty o)) t = true
  ↔ occursInFolded t o.
Proof.
  intros Ht. rewrite includes_spec. unfold occursInFolded. destruct o as [v|]; simpl.
  - split; [by eauto|]. by intros (v' & [= <-] & ?).
  - split; [|by intros (? & ? & ?)].
    intros (pre & post & Heq). destruct pre; [|done].
    destruct t; [done|]. done.
Qed.

(** ** The filtered view *)

Lemma filter_selects {A : Type} (P : A → Prop) (f : A → bool) (l : list A) :
  (∀ x, f x = true ↔ P x) → selects P l (List.filter f l).
Proof.
  intros Hf. induction l as [|x l IH]; simpl; [constructor|].
  destruct (f x) eqn:Hx.
  - apply selects_keep; [by apply Hf|done].
  - apply selects_drop; [|done]. rewrite <- Hf. congruence.
Qed.

Lemma selects_unique {A : Type} (P : A → Prop) (l l1 l2 : list A) :
  selects P l l1 → selects P l l2 → l1 = l2.
Proof.
  intros H1. revert l2. induction H1; intros l2 H2; inversion H2; subst;
    try done; f_equal; auto.
Qed.

Lemma filter_filter_and {A : Type} (f g : A → bool) (l : list A) :
  List.filter f (List.filter g l) = List.filter (λ x, g x && f x) l.
Proof.
  induction l as [|x l IH]; simpl; [done|].
  destruct (g x); simpl; [|done]. destruct (f x); by rewrite IH.
Qed.

Lemma isTarget_spec (u : gmap string UserSpecies.t) (i : string) :
  isTarget u i = true ↔ ∃ r, u !! i = Some r ∧ UserSpecies.target r = true.
Proof.
  unfold isTarget. destruct (u !! i) as [r|]; split.
  - eauto.
  - by intros (? & [= <-] & ?).
  - done.
  - by intros (? & ? & ?).
Qed.

Lemma monthOn_spec (ms : Months) (m : string) :
  monthOn ms m = true ↔ ms !! m = Some true.
Proof.
  unfold monthOn. destruct (ms !! m) as [[]|]; split; congruence.
Qed.

Lemma truthy_spec (s : string) : JsString.truthy s = true ↔ s ≠ "".
Proof. unfold JsString.truthy. by rewrite negb_true_iff, bool_decide_eq_false. Qed.

Lemma selects_iff {A : Type} (P Q : A → Prop) (l l' : list A) :
  (∀ x, P x ↔ Q x) → selects P l l' → selects Q l l'.
Proof.
  intros HPQ. induction 1 as [|x l l' Hx _ IH|x l l' Hx _ IH].
  - constructor.
  - apply selects_keep; [by apply HPQ|done].
  - apply selects_drop; [by rewrite <- HPQ|done].
Qed.

(** C6 (as amended).  The filtered view is exactly the subsequence of the
    catalog, in catalog order, of the species that pass the target
    condition, the month condition and the query condition, where the month
    condition holds for every species when the selected month is the empty
    string; for any other selected month the month condition is the stated
    one: a declared month map has the month present and true. *)
Theorem filtered_selects (species : list Species.t) (u : gmap string UserSpecies.t)
    (q : string) (targetsOnly : bool) (month : string) :
  selects
    (λ s, passTarget u targetsOnly s ∧ passMonth month s ∧ passQuery q s)
    species
    (filtered species u q targetsOnly month)
  ∧ (month ≠ "" →
     selects
       (λ s, passTarget u targetsOnly s ∧ passMonth_spec month s ∧ passQuery q s)
       species
       (filtered species u q targetsOnly month)).
Proof.
  assert (Hsel : selects
            (λ s, passTarget u targetsOnly s ∧ passMonth month s ∧ passQuery q s)
            species (filtered species u q targetsOnly month)).
  {
    unfold filtered. rewrite !filter_filter_and. apply filter_selects. intros s.
    rewrite !andb_true_iff.
    assert (Htarget : (if targetsOnly then isTarget u (Species.id s) else true) = true
                      ↔ passTarget u targetsOnly s).
    { unfold passTarget. destruct targetsOnly.
      - rewrite isTarget_spec. split; [by intros ? _|by intros H; apply H].
      - split; [by intros _ ?|done]. }
    assert (Hmonth : (if negb (JsString.truthy month) then true
                      else match Species.months s with
                           | Some ms => monthOn ms month
                           | None => true
                           end) = true
                     ↔ passMonth month s).
    { unfold passMonth, passMonth_spec.
      destruct (JsString.truthy month) eqn:Hm; simpl.
      - apply truthy_spec in Hm. destruct (Species.months s) as [ms|].
        + rewrite monthOn_spec. split.
          * by intros ? _ ? [= <-].
          * intros H. by apply H.
        + split; [by intros _ _ ? ?|done].
      - split; [|done]. intros _ Hne. apply truthy_spec in Hne. congruence. }
    assert (Hquery : ∀ b : bool,
               (b = true ↔
                occursIn (JsString.toLowerCase (JsString.trim q))
                  (JsString.toLowerCase (Species.common s))
                ∨ occursInFolded (JsString.toLowerCase (JsString.trim q)) (Species.sci s)
                ∨ occursInFolded (JsString.toLowerCase (JsString.trim q)) (Species.family s)
                ∨ occursInFolded (JsString.toLowerCase (JsString.trim q)) (Species.habitat s)) →
               (if negb (JsString.truthy (JsString.toLowerCase (JsString.trim q)))
                then true else b) = true
               ↔ passQuery q s).
    { intros b Hb. unfold passQuery. simpl.
      destruct (JsString.truthy (JsString.toLowerCase (JsString.trim q))) eqn:Ht; simpl.
      - apply truthy_spec in Ht. rewrite Hb. split; [by intros ? _|by intros H; apply H].
      - split; [|done]. intros _ Hne. apply truthy_spec in Hne. congruence. }
    rewrite Htarget, Hmonth.
    destruct (JsString.truthy (JsString.toLowerCase (JsString.trim q))) eqn:Ht.
    - rewrite (Hquery _); [tauto|].
      apply truthy_spec in Ht.
      rewrite !orb_true_iff, !includes_orEmpty, includes_spec by done. tauto.
    - simpl. unfold passQuery. simpl.
      assert (Hne : ¬ JsString.toLowerCase (JsString.trim q) ≠ "").
      { intros Hne. apply truthy_spec in Hne. congruence. }
      tauto. }
  split; [exact Hsel|].
  intros Hm. revert Hsel. apply selects_iff. intros s. unfold passMonth.
  split; [intros (? & Hmonth & ?)|intros (? & Hmonth & ?)]; auto.
Qed.

(** Spec property: no target filter, empty query and empty month give back
    the catalog. *)
Lemma filtered_identity (species : list Species.t) (u : gmap string UserSpecies.t) :
  filtered species u "" false "" = species.
Proof.
  unfold filtered. simpl. induction species as [|s l IH]; simpl; [done|].
  by rewrite IH.
Qed.

(** C6 as stated fails for the empty selected month: a species whose month
    map lacks that key is kept by the code, while the stated month
    condition excludes it. *)
Lemma filtered_empty_month_counterexample :
  let kite :=
    Species.mk "snail-kite" "Snail Kite" None None None None None
      (Some {[ "Jan" := true ]}) in
  filtered [kite] ∅ "" false "" = [kite]
  ∧ ¬ selects
        (λ s, passTarget ∅ false s ∧ passMonth_spec "" s ∧ passQuery "" s)
        [kite]
        (filtered [kite] ∅ "" false "").
Proof.
  intros kite. split; [apply filtered_identity|].
  rewrite filtered_identity. intros Hsel.
  inversion Hsel as [|x l l' (_ & Hmonth & _) _|x l l' _ Hnil]; subst.
  - specialize (Hmonth _ eq_refl). rewrite lookup_singleton_ne in Hmonth; done.
  - inversion Hnil.
Qed.

Example filtered_query_kite :
  let kite := Species.mk "snail-kite" "Snail Kite" (Some "Rostrhamus sociabilis")
                (Some "Accipitridae") None (Some "Marsh") None None in
  let jay := Species.mk "florida-scrub-jay" "Florida Scrub-Jay" None
               (Some "Corvidae") None (Some "Scrub") None None in
  filtered [jay; kite] ∅ " KITE " false "Jan" = [kite].
Proof. reflexivity. Qed.

(** ** Sorting with a comparator *)

Section ArraySortFacts.
Context {A : Type} (key : A → Z).

(** The comparator of a numeric key, as in [(a, b) => key(a) - key(b)]. *)
Let cmp (a b : A) : Z := key a - key b.

Lemma sortInsert_Permutation (x : A) (l : list A) :
  sortInsert cmp x l ≡ₚ x :: l.
Proof.
  induction l as [|y l IH]; simpl; [done|].
  destruct (cmp x y <=? 0); [done|].
  rewrite IH. apply Permutation_swap.
Qed.

Lemma Array_sort_Permutation (l : list A) : Array_sort cmp l ≡ₚ l.
Proof.
  induction l as [|x l IH]; simpl; [done|].
  rewrite sortInsert_Permutation. by rewrite IH.
Qed.

Lemma Array_sort_length (l : list A) : length (Array_sort cmp l) = length l.
Proof. apply Permutation_length, Array_sort_Permutation. Qed.

Lemma sortInsert_sorted (x : A) (l : list A) :
  StronglySorted (λ a b, key a ≤ key b) l →
  StronglySorted (λ a b, key a ≤ key b) (sortInsert cmp x l).
Proof.
  induction 1 as [|y l Hs IH Hy]; simpl.
  - repeat constructor.
  - unfold cmp at 1. destruct (Z.leb_spec (key x - key y) 0) as [Hle|Hgt].
    + constructor; [by constructor|].
      constructor; [lia|]. eapply Forall_impl; [exact Hy|]. simpl. lia.
    + constructor; [done|].
      rewrite sortInsert_Permutation. constructor; [lia|done].
Qed.

Lemma Array_sort_sorted (l : list A) :
  StronglySorted (λ a b, key a ≤ key b) (Array_sort cmp l).
Proof.
  induction l as [|x l IH]; simpl; [constructor|].
  by apply sortInsert_sorted.
Qed.

(** Stability: the elements of any one key keep their order. *)
Lemma sortInsert_stable (k : Z) (x : A) (l : list A) :
  List.filter (λ a, key a =? k) (sortInsert cmp x l)
  = List.filter (λ a, key a =? k) (x :: l).
Proof.
  induction l as [|y l IH]; [done|].
  simpl. unfold cmp at 1. destruct (Z.leb_spec (key x - key y) 0) as [Hle|Hgt]; [done|].
  simpl. simpl in IH. rewrite IH.
  destruct (Z.eqb_spec (key y) k), (Z.eqb_spec (key x) k); try done. lia.
Qed.

Lemma Array_sort_stable (k : Z) (l : list A) :
  List.filter (λ a, key a =? k) (Array_sort cmp l)
  = List.filter (λ a, key a =? k) l.
Proof.
  induction l as [|x l IH]; [done|].
  simpl. rewrite sortInsert_stable. simpl. by rewrite IH.
Qed.
End ArraySortFacts.

(** ** The day seed and the sort key *)

Lemma toUint32_range (x : Z) : 0 ≤ toUint32 x < 2 ^ 32.
Proof. unfold toUint32. apply Z.mod_pos_bound. lia. Qed.

Lemma toUint32_small (x : Z) : 0 ≤ x < 2 ^ 32 → toUint32 x = x.
Proof. unfold toUint32. apply Z.mod_small. Qed.

Lemma hashLoop_snoc (h : Z) (s : string) (c : ascii) :
  hashLoop h (s +:+ String c "")
  = toUint32 (hashLoop h s * 31 + JsString.charCode c).
Proof. revert h. induction s as [|a s IH]; intros h; simpl; [done|]. apply IH. Qed.

Lemma hashLoop_range (h : Z) (s : string) :
  0 ≤ h < 2 ^ 32 → 0 ≤ hashLoop h s < 2 ^ 32.
Proof.
  revert h. induction s as [|a s IH]; intros h Hh; simpl; [done|].
  apply IH, toUint32_range.
Qed.

Lemma dayHash_range (s : string) : 0 ≤ dayHash s < 2 ^ 32.
Proof. apply hashLoop_range. lia. Qed.

Lemma lxor_range (n a b : Z) :
  0 ≤ n → 0 ≤ a < 2 ^ n → 0 ≤ b < 2 ^ n → 0 ≤ Z.lxor a b < 2 ^ n.
Proof.
  intros Hn Ha Hb.
  assert (Hnn : 0 ≤ Z.lxor a b) by (apply Z.lxor_nonneg; lia).
  split; [done|].
  destruct (Z.eq_dec (Z.lxor a b) 0) as [->|Hne]; [lia|].
  assert (0 < n).
  { destruct (Z.eq_dec n 0) as [->|]; [|lia].
    assert (a = 0) as -> by lia. assert (b = 0) as -> by lia. done. }
  apply Z.log2_lt_pow2; [lia|].
  eapply Z.le_lt_trans; [apply Z.log2_lxor; lia|].
  apply Z.max_lub_lt.
  - destruct (Z.eq_dec a 0) as [->|]; [simpl; lia|]. apply Z.log2_lt_pow2; lia.
  - destruct (Z.eq_dec b 0) as [->|]; [simpl; lia|]. apply Z.log2_lt_pow2; lia.
Qed.

(** For lengths below [2^32] the unsigned reading changes nothing: the key
    is the plain exclusive-or. *)
Lemma pickKey_lxor (h : Z) (a : Species.t) :
  0 ≤ h < 2 ^ 32 →
  JsString.length (Species.id a) < 2 ^ 32 →
  JsString.length (Species.common a) < 2 ^ 32 →
  pickKey h a
  = Z.lxor (Z.lxor h (JsString.length (Species.id a)))
      (JsString.length (Species.common a)).
Proof.
  intros Hh Hi Hc. unfold pickKey. apply toUint32_small.
  unfold JsString.length in *.
  apply lxor_range; [lia| |lia]. apply lxor_range; lia.
Qed.

(** ** Daily picks *)

Lemma todaysPicks_unfold (species : list Species.t) (completedIds : list string)
    (month nowISO : string) :
  todaysPicks species completedIds month nowISO
  = take 5
      (Array_sort (λ a b, pickKey (dayHash (String.substring 0 10 nowISO)) a
                          - pickKey (dayHash (String.substring 0 10 nowISO)) b)
         (picksPool species completedIds month)).
Proof. reflexivity. Qed.

Lemma remaining_selects (species : list Species.t) (completedIds : list string) :
  selects (λ s, Species.id s ∉ completedIds) species
    (List.filter (λ s, negb (Array_includes completedIds (Species.id s))) species).
Proof.
  apply filter_selects. intros s. by rewrite negb_true_iff, Array_includes_false.
Qed.

Lemma inMonth_selects (month : string) (l : list Species.t) :
  selects (inMonth month) l
    (List.filter
       (λ s, match Species.months s with
             | Some ms => monthOn ms month
             | None => true
             end) l).
Proof.
  apply filter_selects. intros s. unfold inMonth, inMonth_spec.
  destruct (Species.months s) as [ms|].
  - rewrite monthOn_spec. split.
    + intros ?. right. eauto.
    + intros [?|(ms' & [= <-] & ?)]; done.
  - split; [by left|done].
Qed.

Lemma selects_elem_of {A : Type} (P : A → Prop) (l l' : list A) (x : A) :
  selects P l l' → (x ∈ l' ↔ x ∈ l ∧ P x).
Proof.
  induction 1 as [|y l l' Hy _ IH|y l l' Hy _ IH].
  - split; [by intros ?%elem_of_nil|by intros [?%elem_of_nil _]].
  - rewrite !elem_of_cons, IH. split.
    + intros [->|[? ?]]; auto.
    + intros [[->|?] ?]; auto.
  - rewrite elem_of_cons, IH. split.
    + intros [? ?]; auto.
    + intros [[->|?] ?]; [done|auto].
Qed.

(** The pool is the month-narrowed list of the not yet completed species,
    or all of these when the narrowing leaves none. *)
Lemma picksPool_cases (species : list Species.t) (completedIds : list string)
    (month : string) :
  ∃ candidates narrowed : list Species.t,
    selects (λ s, Species.id s ∉ completedIds) species candidates
    ∧ selects (inMonth month) candidates narrowed
    ∧ ((narrowed = [] ∧ picksPool species completedIds month = candidates)
       ∨ (narrowed ≠ [] ∧ picksPool species completedIds month = narrowed)).
Proof.
  eexists _, _. split; [apply remaining_selects|].
  split; [apply inMonth_selects|].
  unfold picksPool.
  destruct (List.filter _ (List.filter _ species)) as [|s l]; simpl; [by left|by right].
Qed.

Lemma todaysPicks_submseteq (species : list Species.t) (completedIds : list string)
    (month nowISO : string) :
  todaysPicks species completedIds month nowISO ⊆+ picksPool species completedIds month.
Proof.
  rewrite todaysPicks_unfold.
  etrans; [apply submseteq_take|].
  apply Permutation_submseteq.
  apply (Array_sort_Permutation (pickKey (dayHash (String.substring 0 10 nowISO)))).
Qed.

(** The number of picks is exactly the smaller of 5 and the pool size. *)
Lemma todaysPicks_length (species : list Species.t) (completedIds : list string)
    (month nowISO : string) :
  length (todaysPicks species completedIds month nowISO)
  = (5 `min` length (picksPool species completedIds month))%nat.
Proof.
  rewrite todaysPicks_unfold, length_take.
  by rewrite (Array_sort_length (pickKey (dayHash (String.substring 0 10 nowISO)))).
Qed.

(** C1 (as amended).  The picks are drawn from the pool that is the catalog
    without the completed species, narrowed to the species that declare no
    month map or whose month map has the selected month as true, or not
    narrowed when that leaves none: at most 5 picks, at most as many as the
    pool has, each of them in the pool.  Whatever lists fit that
    description of the candidates, of their narrowing and of the pool, the
    picks are taken from that very pool, counted with multiplicity, and
    there are exactly as many picks as the smaller of 5 and the size of the
    pool; so a pool that is not empty, narrowed or fallen back to, gives at
    least one pick. *)
Theorem todaysPicks_pool (species : list Species.t) (completedIds : list string)
    (month nowISO : string) :
  drawnFromPool (inMonth month) species completedIds
    (todaysPicks species completedIds month nowISO)
  ∧ ∀ candidates narrowed pool : list Species.t,
      selects (λ s, Species.id s ∉ completedIds) species candidates →
      selects (inMonth month) candidates narrowed →
      (narrowed = [] ∧ pool = candidates) ∨ (narrowed ≠ [] ∧ pool = narrowed) →
      todaysPicks species completedIds month nowISO ⊆+ pool
      ∧ length (todaysPicks species completedIds month nowISO)
        = (5 `min` length pool)%nat
      ∧ (∀ s, s ∈ todaysPicks species completedIds month nowISO →
              s ∈ species ∧ (Species.id s ∉ completedIds)
              ∧ (narrowed ≠ [] → inMonth month s))
      ∧ (pool ≠ [] → todaysPicks species completedIds month nowISO ≠ []).
Proof.
  destruct (picksPool_cases species completedIds month)
    as (candidates & narrowed & Hc & Hn & Hpool).
  assert (Hsub := todaysPicks_submseteq species completedIds month nowISO).
  assert (Hlen := todaysPicks_length species completedIds month nowISO).
  split.
  - exists candidates, narrowed, (picksPool species completedIds month).
    split_and!; try done.
    + rewrite Hlen. lia.
    + by apply submseteq_length.
    + intros s Hs. by eapply elem_of_submseteq.
  - intros candidates' narrowed' pool Hc' Hn' Hpool'.
    assert (candidates' = candidates) as -> by (by eapply selects_unique).
    assert (narrowed' = narrowed) as -> by (by eapply selects_unique).
    assert (Heq : picksPool species completedIds month = pool).
    { destruct Hpool as [[Hnil ->]|[Hne ->]], Hpool' as [[Hnil' ->]|[Hne' ->]];
        congruence. }
    rewrite Heq in Hsub, Hlen. split_and!; [done|done| |].
    + intros s Hs. apply (elem_of_submseteq _ _ _ Hs) in Hsub as Hin.
      destruct Hpool' as [[Hnil ->]|[Hne ->]].
      * destruct (proj1 (selects_elem_of _ _ _ s Hc) Hin). by split_and!.
      * destruct (proj1 (selects_elem_of _ _ _ s Hn) Hin) as [Hin' ?].
        destruct (proj1 (selects_elem_of _ _ _ s Hc) Hin'). by split_and!.
    + intros Hne Hnil. rewrite Hnil in Hlen. simpl in Hlen.
      destruct pool; [done|simpl in Hlen; lia].
Qed.

(** C1 as stated fails: a species without a month map is picked although
    the stated narrowing, which keeps only species whose map has the month,
    leaves a non-empty pool without it. *)
Lemma todaysPicks_pool_counterexample :
  ¬ drawnFromPool (inMonth_spec "Jan") [Sample.jay; Sample.kite] []
      (todaysPicks [Sample.jay; Sample.kite] [] "Jan" Sample.morning).
Proof.
  intros (candidates & narrowed & pool & Hc & Hn & Hpool & _ & Hlen & _).
  assert (candidates = [Sample.jay; Sample.kite]) as ->.
  { eapply selects_unique; [exact Hc|].
    repeat (apply selects_keep; [by intros ?%elem_of_nil|]). constructor. }
  assert (narrowed = [Sample.kite]) as ->.
  { eapply selects_unique; [exact Hn|].
    apply selects_drop; [by intros (ms & ? & _)|].
    apply selects_keep; [|constructor].
    eexists. split; [reflexivity|]. by vm_compute. }
  destruct Hpool as [[? _]|[_ ->]]; [done|].
  vm_compute in Hlen. lia.
Qed.

(** C2.  The day seed is the rolling hash of the first ten characters of the
    ISO instant: 0 on the empty string, and the seed of a string extended by
    one character is the seed of the string times 31 plus the character
    code, modulo [2^32].  The picks are the first five elements of the pool
    put in non-decreasing order of the key, pool order kept among equal
    keys, where the key is the exclusive-or of the seed with the two
    lengths. *)
Theorem todaysPicks_order (species : list Species.t) (completedIds : list string)
    (month nowISO : string) :
  let h := dayHash (String.substring 0 10 nowISO) in
  let pool := picksPool species completedIds month in
  dayHash "" = 0
  ∧ (∀ (s : string) (c : ascii),
       dayHash (s +:+ String c "") = (dayHash s * 31 + JsString.charCode c) mod 2 ^ 32)
  ∧ 0 ≤ h < 2 ^ 32
  ∧ (∀ a : Species.t,
       JsString.length (Species.id a) < 2 ^ 32 →
       JsString.length (Species.common a) < 2 ^ 32 →
       pickKey h a
       = Z.lxor (Z.lxor h (JsString.length (Species.id a)))
           (JsString.length (Species.common a)))
  ∧ ∃ ordered : list Species.t,
      ordered ≡ₚ pool
      ∧ StronglySorted (λ a b, pickKey h a ≤ pickKey h b) ordered
      ∧ (∀ k : Z,
           List.filter (λ a, pickKey h a =? k) ordered
           = List.filter (λ a, pickKey h a =? k) pool)
      ∧ todaysPicks species completedIds month nowISO = take 5 ordered.
Proof.
  intros h pool. split_and!.
  - reflexivity.
  - intros s c. apply hashLoop_snoc.
  - apply dayHash_range.
  - apply dayHash_range.
  - intros a. apply pickKey_lxor, dayHash_range.
  - exists (Array_sort (λ a b, pickKey h a - pickKey h b) pool). split_and!.
    + apply (Array_sort_Permutation (pickKey h)).
    + apply (Array_sort_sorted (pickKey h)).
    + intros k. apply (Array_sort_stable (pickKey h)).
    + apply todaysPicks_unfold.
Qed.

Example dayHash_sample : dayHash "2024-01-05" = 3681625668.
Proof. reflexivity. Qed.

(** Spec example: two species available all year, nothing completed. *)
Example todaysPicks_two :
  todaysPicks [Sample.kite; Species.mk "florida-scrub-jay" "Florida Scrub-Jay" None
                              None None None None (Some Sample.allYear)]
    [] "Jan" Sample.morning
  = [Sample.kite; Species.mk "florida-scrub-jay" "Florida Scrub-Jay" None
                    None None None None (Some Sample.allYear)].
Proof. by vm_compute. Qed.

(** ** Determinism of the daily picks *)

Lemma picksPool_ext (species : list Species.t) (c1 c2 : list string) (month : string) :
  (∀ s, s ∈ species → (Species.id s ∈ c1 ↔ Species.id s ∈ c2)) →
  picksPool species c1 month = picksPool species c2 month.
Proof.
  intros Hc. unfold picksPool.
  assert (Heq : List.filter (λ s, negb (Array_includes c1 (Species.id s))) species
                = List.filter (λ s, negb (Array_includes c2 (Species.id s))) species).
  { apply filter_ext_in. intros s Hs%list_elem_of_In. f_equal.
    unfold Array_includes. apply bool_decide_ext. by apply Hc. }
  by rewrite Heq.
Qed.

Lemma todaysPicks_elem_of (species : list Species.t) (completedIds : list string)
    (month nowISO : string) (s : Species.t) :
  s ∈ todaysPicks species completedIds month nowISO →
  s ∈ species ∧ Species.id s ∉ completedIds.
Proof.
  intros Hs.
  assert (Hpool : s ∈ picksPool species completedIds month).
  { eapply elem_of_submseteq; [exact Hs|apply todaysPicks_submseteq]. }
  destruct (picksPool_cases species completedIds month)
    as (candidates & narrowed & Hc & Hn & [[_ Heq]|[_ Heq]]);
    rewrite Heq in Hpool.
  - exact (proj1 (selects_elem_of _ _ _ s Hc) Hpool).
  - destruct (proj1 (selects_elem_of _ _ _ s Hn) Hpool) as [Hs' _].
    exact (proj1 (selects_elem_of _ _ _ s Hc) Hs').
Qed.

(** *** The seed string *)

Lemma String_length_append (a b : string) :
  String.length (a +:+ b) = (String.length a + String.length b)%nat.
Proof. induction a as [|c a IH]; simpl; [done|by rewrite IH]. Qed.

Lemma substring_append_prefix (n : nat) (a b : string) :
  (n ≤ String.length a)%nat →
  String.substring 0 n (a +:+ b) = String.substring 0 n a.
Proof.
  revert a. induction n as [|n IH]; intros a Hn.
  - by destruct (a +:+ b), a.
  - destruct a as [|c a]; simpl in *; [lia|]. rewrite IH; [done|lia].
Qed.

Lemma padded_length (k : nat) (n : Z) : String.length (JsDate.padded k n) = k.
Proof.
  revert n. induction k as [|k IH]; intros n; simpl; [done|].
  rewrite String_length_append, IH. simpl. lia.
Qed.

Lemma dateString_length (d : Z) : (10 ≤ String.length (JsDate.dateString d))%nat.
Proof.
  unfold JsDate.dateString. cbv zeta.
  rewrite !String_length_append, !padded_length.
  unfold JsDate.yearString.
  destruct (_ && _); [|destruct (_ <=? _)];
    rewrite ?String_length_append, !padded_length; simpl; lia.
Qed.

(** The seed string [toISOString().slice(0, 10)] is determined by the UTC
    day of the time value. *)
Lemma toISOString_slice (t : Z) :
  String.substring 0 10 (JsDate.toISOString t)
  = String.substring 0 10 (JsDate.dateString (JsDate.Day t)).
Proof. unfold JsDate.toISOString. apply substring_append_prefix, dateString_length. Qed.

Lemma DayFromYear_step (y : Z) :
  365 ≤ JsDate.DayFromYear (y + 1) - JsDate.DayFromYear y ≤ 366.
Proof. unfold JsDate.DayFromYear. Z.div_mod_to_equations. lia. Qed.

Lemma DayFromYear_DaysInYear (y : Z) :
  JsDate.DayFromYear (y + 1) = JsDate.DayFromYear y + JsDate.DaysInYear y.
Proof.
  unfold JsDate.DayFromYear, JsDate.DaysInYear.
  destruct (Z.eqb_spec (y mod 4) 0), (Z.eqb_spec (y mod 100) 0),
    (Z.eqb_spec (y mod 400) 0); cbn [negb]; Z.div_mod_to_equations; lia.
Qed.

Lemma DayFromYear_after (y : Z) :
  1970 ≤ y → 365 * (y - 1970) ≤ JsDate.DayFromYear y.
Proof. unfold JsDate.DayFromYear. Z.div_mod_to_equations. lia. Qed.

Lemma DayFromYear_before (y : Z) :
  y ≤ 1970 → JsDate.DayFromYear y ≤ 365 * (y - 1970).
Proof. unfold JsDate.DayFromYear. Z.div_mod_to_equations. lia. Qed.

Lemma yearOnOrBefore_spec (fuel : nat) (y d : Z) :
  d < JsDate.DayFromYear (y + 1) →
  JsDate.DayFromYear (y - Z.of_nat fuel) ≤ d →
  JsDate.DayFromYear (JsDate.yearOnOrBefore fuel y d) ≤ d
  ∧ d < JsDate.DayFromYear (JsDate.yearOnOrBefore fuel y d + 1).
Proof.
  revert y. induction fuel as [|fuel IH]; intros y Hhi Hlo; simpl.
  - by rewrite Z.sub_0_r in Hlo.
  - destruct (Z.leb_spec (JsDate.DayFromYear y) d); [done|].
    apply IH.
    + by replace (y - 1 + 1) with y by lia.
    + by replace (y - 1 - Z.of_nat fuel) with (y - Z.of_nat (S fuel)) by lia.
Qed.

(** [YearFromDay] is the year of ECMAScript's YearFromTime: the one whose
    days include day [d]. *)
Lemma YearFromDay_spec (d : Z) :
  JsDate.DayFromYear (JsDate.YearFromDay d) ≤ d
  ∧ d < JsDate.DayFromYear (JsDate.YearFromDay d + 1).
Proof.
  unfold JsDate.YearFromDay. apply yearOnOrBefore_spec.
  - destruct (Z.le_gt_cases 0 d) as [Hd|Hd].
    + pose proof (DayFromYear_after (1970 + Z.max 0 (d / 365) + 1)).
      Z.div_mod_to_equations. lia.
    + pose proof (DayFromYear_after (1970 + Z.max 0 (d / 365) + 1)).
      Z.div_mod_to_equations. lia.
  - rewrite Z2Nat.id by (Z.div_mod_to_equations; lia).
    etrans; [apply DayFromYear_before|]; Z.div_mod_to_equations; lia.
Qed.

Example toISOString_samples :
  JsDate.toISOString 0 = "1970-01-01T00:00:00.000Z"
  ∧ JsDate.toISOString (-1000) = "1969-12-31T23:59:59.000Z"
  ∧ JsDate.toISOString 951825600000 = "2000-02-29T12:00:00.000Z"
  ∧ JsDate.toISOString 4107542399999 = "2100-02-28T23:59:59.999Z"
  ∧ JsDate.toISOString 1704442500000 = Sample.morning
  ∧ JsDate.toISOString 253402300800000 = "+010000-01-01T00:00:00.000Z".
Proof. by vm_compute. Qed.

(** C3 (as amended).  On one UTC date (equal date parts of the two
    [toISOString] values, which is what the code hashes, not the local
    calendar day) and with completed lists that agree on the catalog's
    identifiers, two computations give the same list of at most 5 picks, in
    particular at two time values of one UTC day; and completing one of the
    picks changes the result, since that species is picked no more. *)
Theorem todaysPicks_deterministic (species : list Species.t) (c1 c2 : list string)
    (month now1 now2 : string) :
  String.substring 0 10 now1 = String.substring 0 10 now2 →
  (∀ s, s ∈ species → (Species.id s ∈ c1 ↔ Species.id s ∈ c2)) →
  todaysPicks species c1 month now1 = todaysPicks species c2 month now2
  ∧ (length (todaysPicks species c1 month now1) ≤ 5)%nat
  ∧ (∀ s, s ∈ todaysPicks species c1 month now1 →
          (s ∉ todaysPicks species (c1 ++ [Species.id s]) month now1)
          ∧ todaysPicks species (c1 ++ [Species.id s]) month now1
            ≠ todaysPicks species c1 month now1)
  ∧ (∀ t1 t2 : Z,
       JsDate.Day t1 = JsDate.Day t2 →
       todaysPicks species c1 month (JsDate.toISOString t1)
       = todaysPicks species c2 month (JsDate.toISOString t2)).
Proof.
  intros Hday Hc. split_and!.
  - rewrite !todaysPicks_unfold, Hday. by rewrite (picksPool_ext species c1 c2 month Hc).
  - rewrite todaysPicks_unfold, length_take. lia.
  - intros s Hs.
    assert (Hnot : s ∉ todaysPicks species (c1 ++ [Species.id s]) month now1).
    { intros [_ Hin]%todaysPicks_elem_of. apply Hin, elem_of_app. right.
      by apply list_elem_of_singleton. }
    split; [done|]. intros Heq. by rewrite Heq in Hnot.
  - intros t1 t2 Ht.
    rewrite !todaysPicks_unfold, !toISOString_slice, Ht.
    by rewrite (picksPool_ext species c1 c2 month Hc).
Qed.

Lemma todaysPicks_deterministic_witness :
  todaysPicks Sample.catalog ["limpkin"; "bald-eagle"] "Jan" Sample.morning
  = todaysPicks Sample.catalog ["bald-eagle"; "limpkin"; "limpkin"] "Jan" Sample.evening
  ∧ (length (todaysPicks Sample.catalog ["limpkin"; "bald-eagle"] "Jan" Sample.morning) ≤ 5)%nat
  ∧ (∀ s, s ∈ todaysPicks Sample.catalog ["limpkin"; "bald-eagle"] "Jan" Sample.morning →
          (s ∉ todaysPicks Sample.catalog (["limpkin"; "bald-eagle"] ++ [Species.id s])
                 "Jan" Sample.morning)
          ∧ todaysPicks Sample.catalog (["limpkin"; "bald-eagle"] ++ [Species.id s])
              "Jan" Sample.morning
            ≠ todaysPicks Sample.catalog ["limpkin"; "bald-eagle"] "Jan" Sample.morning)
  ∧ (∀ t1 t2 : Z,
       JsDate.Day t1 = JsDate.Day t2 →
       todaysPicks Sample.catalog ["limpkin"; "bald-eagle"] "Jan" (JsDate.toISOString t1)
       = todaysPicks Sample.catalog ["bald-eagle"; "limpkin"; "limpkin"] "Jan"
           (JsDate.toISOString t2)).
Proof.
  apply (todaysPicks_deterministic Sample.catalog ["limpkin"; "bald-eagle"]
           ["bald-eagle"; "limpkin"; "limpkin"] "Jan" Sample.morning Sample.evening).
  - reflexivity.
  - intros s _. rewrite !elem_of_cons, !elem_of_nil. tauto.
Defined.

(** C3 as stated fails.  Neither a change of the completed set nor a change
    of the day has to change the picks: completing the limpkin, which is in
    the catalog but not among the picks, leaves them as they are, and so
    does the passage to the next day.  And the picks are not the same
    throughout a local calendar day: in Florida, 18:30 and 19:30 of 5
    January 2024 lie on two UTC dates, and the picks from a catalog with
    identifiers of its own differ between them. *)
Lemma todaysPicks_change_counterexample :
  ¬ (∀ (species : list Species.t) (c1 c2 : list string) (month nowISO : string),
       (∃ i, (i ∉ c1) ∧ i ∈ c2) →
       todaysPicks species c1 month nowISO ≠ todaysPicks species c2 month nowISO)
  ∧ ¬ (∀ (species : list Species.t) (c : list string) (month now1 now2 : string),
         String.substring 0 10 now1 ≠ String.substring 0 10 now2 →
         todaysPicks species c month now1 ≠ todaysPicks species c month now2)
  ∧ (JsDate.localDate Sample.eastern Sample.halfPastSix = "2024-01-05"
     ∧ JsDate.localDate Sample.eastern Sample.halfPastSeven = "2024-01-05"
     ∧ JsDate.toISOString Sample.halfPastSix = "2024-01-05T23:30:00.000Z"
     ∧ JsDate.toISOString Sample.halfPastSeven = "2024-01-06T00:30:00.000Z"
     ∧ Species.id <$> todaysPicks Sample.coded [] "Jan"
                        (JsDate.toISOString Sample.halfPastSix)
       = ["osprey"; "limpki"]
     ∧ Species.id <$> todaysPicks Sample.coded [] "Jan"
                        (JsDate.toISOString Sample.halfPastSeven)
       = ["limpki"; "osprey"]
     ∧ todaysPicks Sample.coded [] "Jan" (JsDate.toISOString Sample.halfPastSix)
       ≠ todaysPicks Sample.coded [] "Jan" (JsDate.toISOString Sample.halfPastSeven)).
Proof.
  split_and!.
  - intros Hclaim.
    apply (Hclaim Sample.catalog [] ["limpkin"] "Jan" Sample.morning).
    + exists "limpkin". split; [apply not_elem_of_nil|apply list_elem_of_here].
    + by vm_compute.
  - intros Hclaim.
    apply (Hclaim Sample.catalog [] "Jan" Sample.morning Sample.nextDay).
    + done.
    + by vm_compute.
  - by vm_compute.
  - by vm_compute.
  - by vm_compute.
  - by vm_compute.
  - by vm_compute.
  - by vm_compute.
  - by vm_compute.
Qed.

Example todaysPicks_next_day :
  String.substring 0 10 Sample.morning ≠ String.substring 0 10 Sample.nextDay
  ∧ todaysPicks Sample.catalog [] "Jan" Sample.morning
    = todaysPicks Sample.catalog [] "Jan" Sample.nextDay.
Proof. split; [done|by vm_compute]. Qed.

(** ** Number arithmetic *)

Section Float64Facts.
Local Open Scope Q_scope.

Lemma roundHalfEven_floor (x : Q) :
  (Qfloor x <= Float64.roundHalfEven x)%Z.
Proof.
  unfold Float64.roundHalfEven.
  destruct (Qcompare _ _); [destruct (Z.even _)| |]; lia.
Qed.

Lemma roundHalfEven_ge (x : Q) (n : Z) :
  inject_Z n <= x → (n <= Float64.roundHalfEven x)%Z.
Proof.
  intros Hx. apply Qfloor_resp_le in Hx. rewrite Qfloor_Z in Hx.
  pose proof (roundHalfEven_floor x). lia.
Qed.

Lemma roundHalfEven_le (x : Q) (n : Z) :
  x <= inject_Z n → (Float64.roundHalfEven x <= n)%Z.
Proof.
  intros Hx. unfold Float64.roundHalfEven.
  pose proof (Qfloor_le x) as Hf.
  assert (Hle : (Qfloor x <= n)%Z) by (rewrite Zle_Qle; lra).
  destruct (Qcompare_spec (x - inject_Z (Qfloor x)) (1 # 2)) as [He|Hl|Hg].
  - assert (Hlt : (Qfloor x < n)%Z) by (rewrite Zlt_Qlt; lra).
    destruct (Z.even _); lia.
  - done.
  - assert (Hlt : (Qfloor x < n)%Z) by (rewrite Zlt_Qlt; lra). lia.
Qed.

Lemma pow2_pos (e : Z) : 0 < 2 ^ e.
Proof. apply Qpower_0_lt. reflexivity. Qed.

(** A power of two with a non-positive exponent is the inverse of an
    integer. *)
Lemma pow2_nonpos (e : Z) :
  (e <= 0)%Z → 2 ^ e == / inject_Z (2 ^ (- e)).
Proof.
  intros He. rewrite Zpower_Qpower by lia.
  rewrite <- Qpower_opp. by rewrite Z.opp_involutive.
Qed.

Lemma ilog2_le (x : Q) (B : Z) :
  0 < x → x <= inject_Z B → (Float64.ilog2 x <= Z.log2 B + 1)%Z.
Proof.
  intros Hpos Hx.
  assert (Hk : (Z.log2 (Qnum x) - Z.log2 (Zpos (Qden x)) <= Z.log2 B + 1)%Z).
  { destruct x as [n d]. unfold Qle, Qlt in *. cbn [Qnum Qden inject_Z] in *.
    assert (0 < B)%Z by nia.
    assert (Hn : (n <= B * Zpos d)%Z) by lia.
    apply Z.log2_le_mono in Hn.
    pose proof (Z.log2_mul_above B (Zpos d)). lia. }
  unfold Float64.ilog2. cbv zeta. destruct (Qle_bool _ _); lia.
Qed.

Lemma roundPos_nonneg (x : Q) : 0 < x → 0 <= Float64.roundPos x.
Proof.
  intros Hx. unfold Float64.roundPos.
  apply Qmult_le_0_compat; [|apply Qlt_le_weak, pow2_pos].
  change 0 with (inject_Z 0). rewrite <- Zle_Qle.
  apply roundHalfEven_ge.
  apply Qle_shift_div_l; [apply pow2_pos|].
  change (inject_Z 0) with 0. rewrite Qmult_0_l. by apply Qlt_le_weak.
Qed.

(** Rounding a positive number does not pass an integer above it, as long
    as integers of that size are binary64 values. *)
Lemma roundPos_le_Z (x : Q) (B : Z) :
  0 < x → x <= inject_Z B → (Z.log2 B < 52)%Z →
  Float64.roundPos x <= inject_Z B.
Proof.
  intros Hpos Hx HB. unfold Float64.roundPos.
  assert (He : (Float64.ulpExp x <= 0)%Z).
  { unfold Float64.ulpExp. pose proof (ilog2_le x B Hpos Hx). lia. }
  generalize dependent (Float64.ulpExp x). intros e He.
  assert (HP : 0 < inject_Z (2 ^ (- e))).
  { change 0 with (inject_Z 0). rewrite <- Zlt_Qlt. apply Z.pow_pos_nonneg; lia. }
  assert (Hm : (Float64.roundHalfEven (x / 2 ^ e) <= B * 2 ^ (- e))%Z).
  { apply roundHalfEven_le. rewrite inject_Z_mult, (pow2_nonpos e He).
    unfold Qdiv. rewrite Qinv_involutive.
    apply Qmult_le_compat_r; [done|by apply Qlt_le_weak]. }
  revert Hm. generalize (Float64.roundHalfEven (x / 2 ^ e)). intros m Hm.
  rewrite Zle_Qle, inject_Z_mult in Hm.
  rewrite (pow2_nonpos e He).
  by apply Qle_shift_div_r.
Qed.

Lemma round_bounds (x : Q) (B : Z) :
  0 <= x → x <= inject_Z B → (Z.log2 B < 52)%Z →
  0 <= Float64.round x ∧ Float64.round x <= inject_Z B.
Proof.
  intros H0 Hx HB. unfold Float64.round.
  destruct (Qcompare_spec x 0) as [He|Hl|Hg].
  - split; [lra|]. lra.
  - lra.
  - split; [by apply roundPos_nonneg|by apply roundPos_le_Z].
Qed.

Lemma Math_round_bounds (x : Q) (B : Z) :
  0 <= x → x <= inject_Z B → (0 <= Float64.Math_round x <= B)%Z.
Proof.
  intros H0 Hx. unfold Float64.Math_round. split.
  - assert (H : inject_Z 0 <= x + (1 # 2)) by (change (inject_Z 0) with 0; lra).
    apply Qfloor_resp_le in H. by rewrite Qfloor_Z in H.
  - assert (H : x + (1 # 2) <= inject_Z B + (1 # 2)) by lra.
    apply Qfloor_resp_le in H. etrans; [exact H|].
    assert (Hlt : (Qfloor (inject_Z B + (1 # 2)) < B + 1)%Z).
    { rewrite Zlt_Qlt. eapply Qle_lt_trans; [apply Qfloor_le|].
      rewrite inject_Z_plus. change (inject_Z 1) with 1. lra. }
    lia.
Qed.

(** The percentage of a part of a whole, as [Math.round((a / b) * 100)]
    computes it, is between 0 and 100. *)
Lemma percent_bounds (a b : Z) :
  (0 <= a <= b)%Z → (0 < b)%Z →
  (0 <= Float64.Math_round
          (Float64.mul (Float64.div (inject_Z a) (inject_Z b)) (inject_Z 100))
     <= 100)%Z.
Proof.
  intros Ha Hb.
  assert (Hb' : 0 < inject_Z b) by (change 0 with (inject_Z 0); by rewrite <- Zlt_Qlt).
  assert (Ha0 : 0 <= inject_Z a) by (change 0 with (inject_Z 0); rewrite <- Zle_Qle; lia).
  assert (Hab : inject_Z a <= inject_Z b) by (rewrite <- Zle_Qle; lia).
  destruct (round_bounds (inject_Z a / inject_Z b) 1) as [Hq0 Hq1].
  { apply Qle_shift_div_l; [done|]. lra. }
  { apply Qle_shift_div_r; [done|]. change (inject_Z 1) with 1. lra. }
  { done. }
  fold (Float64.div (inject_Z a) (inject_Z b)) in Hq0, Hq1.
  set (q := Float64.div (inject_Z a) (inject_Z b)) in *.
  destruct (round_bounds (q * inject_Z 100) 100) as [Hp0 Hp1].
  { apply Qmult_le_0_compat; [done|]. done. }
  { change (inject_Z 1) with 1 in Hq1. change (inject_Z 100) with 100. lra. }
  { done. }
  by apply Math_round_bounds.
Qed.
Lemma roundHalfEven_near (y : Q) :
  y - (1 # 2) <= inject_Z (Float64.roundHalfEven y)
  ∧ inject_Z (Float64.roundHalfEven y) <= y + (1 # 2).
Proof.
  unfold Float64.roundHalfEven.
  pose proof (Qfloor_le y) as Hf. pose proof (Qlt_floor y) as Hc.
  rewrite inject_Z_plus in Hc. change (inject_Z 1) with 1 in Hc.
  destruct (Qcompare_spec (y - inject_Z (Qfloor y)) (1 # 2)) as [He|Hl|Hg].
  - destruct (Z.even _); [|rewrite inject_Z_plus; change (inject_Z 1) with 1];
      split; lra.
  - split; lra.
  - rewrite inject_Z_plus. change (inject_Z 1) with 1. split; lra.
Qed.

(** Rounding moves a positive number by at most half a unit in the last
    place. *)
Lemma roundPos_near (x : Q) :
  x - 2 ^ Float64.ulpExp x * (1 # 2) <= Float64.roundPos x
  ∧ Float64.roundPos x <= x + 2 ^ Float64.ulpExp x * (1 # 2).
Proof.
  unfold Float64.roundPos.
  pose proof (pow2_pos (Float64.ulpExp x)) as HP.
  set (P := 2 ^ Float64.ulpExp x) in *.
  destruct (roundHalfEven_near (x / P)) as [Hlo Hhi].
  revert Hlo Hhi. generalize (inject_Z (Float64.roundHalfEven (x / P))). intros m Hlo Hhi.
  assert (Hx : x / P * P == x) by (field; lra).
  revert Hx Hlo Hhi. generalize (x / P). intros y Hx Hlo Hhi.
  apply (Qmult_le_compat_r _ _ P) in Hlo; [|lra].
  apply (Qmult_le_compat_r _ _ P) in Hhi; [|lra].
  split; lra.
Qed.

Lemma pow2_mono (a b : Z) : (a <= b)%Z → 2 ^ a <= 2 ^ b.
Proof. intros H. apply Qpower_le_compat_l; [done|lra]. Qed.

Lemma round_near (x : Q) (B : Z) :
  0 <= x → x <= inject_Z B → (0 < B)%Z →
  x - 2 ^ (Z.log2 B - 52) <= Float64.round x
  ∧ Float64.round x <= x + 2 ^ (Z.log2 B - 52).
Proof.
  intros H0 Hx HB. unfold Float64.round.
  pose proof (pow2_pos (Z.log2 B - 52)) as HP.
  destruct (Qcompare_spec x 0) as [He|Hl|Hg].
  - split; lra.
  - lra.
  - destruct (roundPos_near x) as [Hlo Hhi].
    assert (He : (Float64.ulpExp x <= Z.log2 B - 51)%Z).
    { unfold Float64.ulpExp. pose proof (ilog2_le x B Hg Hx).
      pose proof (Z.log2_nonneg B). lia. }
    apply pow2_mono in He.
    assert (Hh : 2 ^ (Z.log2 B - 51) * (1 # 2) == 2 ^ (Z.log2 B - 52)).
    { replace (Z.log2 B - 51)%Z with (Z.log2 B - 52 + 1)%Z by lia.
      rewrite Qpower_plus by done. change (2 ^ 1) with 2. field. }
    split; lra.
Qed.

(** [(a / b) * 100] as a Number is within [2^-44] of the rational. *)
Lemma percent_near (a b : Z) :
  (0 <= a <= b)%Z → (0 < b)%Z →
  inject_Z a / inject_Z b * 100 - (1 # 17592186044416)
  <= Float64.mul (Float64.div (inject_Z a) (inject_Z b)) (inject_Z 100)
  ∧ Float64.mul (Float64.div (inject_Z a) (inject_Z b)) (inject_Z 100)
    <= inject_Z a / inject_Z b * 100 + (1 # 17592186044416).
Proof.
  intros Ha Hb.
  assert (Hb' : 0 < inject_Z b) by (change 0 with (inject_Z 0); by rewrite <- Zlt_Qlt).
  assert (Ha0 : 0 <= inject_Z a) by (change 0 with (inject_Z 0); rewrite <- Zle_Qle; lia).
  assert (Hab : inject_Z a <= inject_Z b) by (rewrite <- Zle_Qle; lia).
  assert (Hx0 : 0 <= inject_Z a / inject_Z b).
  { apply Qle_shift_div_l; [done|]. lra. }
  assert (Hx1 : inject_Z a / inject_Z b <= inject_Z 1).
  { apply Qle_shift_div_r; [done|]. change (inject_Z 1) with 1. lra. }
  destruct (round_bounds _ 1 Hx0 Hx1) as [Hq0 Hq1]; [done|].
  destruct (round_near _ 1 Hx0 Hx1) as [Hn0 Hn1]; [done|].
  fold (Float64.div (inject_Z a) (inject_Z b)) in Hq0, Hq1, Hn0, Hn1.
  revert Hq0 Hq1 Hn0 Hn1.
  generalize (Float64.div (inject_Z a) (inject_Z b)). intros q Hq0 Hq1 Hn0 Hn1.
  change (inject_Z 1) with 1 in Hq1.
  change (2 ^ (Z.log2 1 - 52)) with (1 # 4503599627370496) in Hn0, Hn1.
  assert (Hp0 : 0 <= q * inject_Z 100) by (change (inject_Z 100) with 100; lra).
  assert (Hp1 : q * inject_Z 100 <= inject_Z 100) by (change (inject_Z 100) with 100; lra).
  destruct (round_near _ 100 Hp0 Hp1) as [Hm0 Hm1]; [done|].
  fold (Float64.mul q (inject_Z 100)) in Hm0, Hm1.
  revert Hm0 Hm1. generalize (Float64.mul q (inject_Z 100)). intros p Hm0 Hm1.
  change (2 ^ (Z.log2 100 - 52)) with (1 # 70368744177664) in Hm0, Hm1.
  change (inject_Z 100) with 100 in Hm0, Hm1.
  revert Hn0 Hn1. generalize (inject_Z a / inject_Z b). intros x Hn0 Hn1.
  split; lra.
Qed.

Lemma inject_Z_sub (a b : Z) : inject_Z (a - b) == inject_Z a - inject_Z b.
Proof. unfold Z.sub. by rewrite inject_Z_plus, inject_Z_opp. Qed.

Lemma Qfloor_unique (y : Q) (n : Z) :
  inject_Z n <= y → y < inject_Z n + 1 → Qfloor y = n.
Proof.
  intros Hlo Hhi.
  apply Qfloor_resp_le in Hlo. rewrite Qfloor_Z in Hlo.
  assert (Hlt : (Qfloor y < n + 1)%Z).
  { rewrite Zlt_Qlt, inject_Z_plus. change (inject_Z 1) with 1.
    eapply Qle_lt_trans; [apply Qfloor_le|done]. }
  lia.
Qed.

(** The percentage the code computes is the exactly rounded one, except
    that a percentage which falls exactly between two integers may be
    rounded down instead of up. *)
Lemma percent_exact (a b : Z) :
  (0 <= a <= b)%Z → (0 < b < 2 ^ 32)%Z →
  let p := Float64.Math_round
             (Float64.mul (Float64.div (inject_Z a) (inject_Z b)) (inject_Z 100)) in
  p = exactPercent a b
  ∨ ((2 * b | 200 * a + b)%Z ∧ p = (exactPercent a b - 1)%Z).
Proof.
  intros Ha Hb p. subst p.
  destruct (percent_near a b Ha) as [Hlo Hhi]; [lia|].
  revert Hlo Hhi.
  generalize (Float64.mul (Float64.div (inject_Z a) (inject_Z b)) (inject_Z 100)).
  intros p Hlo Hhi. unfold Float64.Math_round, exactPercent.
  assert (Hb' : 0 < inject_Z b) by (change 0 with (inject_Z 0); rewrite <- Zlt_Qlt; lia).
  assert (Hb32 : inject_Z b <= 4294967295).
  { change 4294967295 with (inject_Z (2 ^ 32 - 1)). rewrite <- Zle_Qle. lia. }
  set (X := inject_Z a / inject_Z b * 100) in *.
  pose proof (Qfloor_le (X + (1 # 2))) as HE1.
  pose proof (Qlt_floor (X + (1 # 2))) as HE2.
  rewrite inject_Z_plus in HE2. change (inject_Z 1) with 1 in HE2.
  set (E := Qfloor (X + (1 # 2))) in *.
  set (N := (200 * a + b - 2 * b * E)%Z).
  assert (HN : inject_Z N == (X + (1 # 2) - inject_Z E) * (2 * inject_Z b)).
  { unfold N, X. rewrite inject_Z_sub, inject_Z_plus, !inject_Z_mult.
    change (inject_Z 200) with 200. change (inject_Z 2) with 2. field. lra. }
  assert (HN0 : (0 <= N)%Z).
  { rewrite Zle_Qle, HN. change (inject_Z 0) with 0.
    apply Qmult_le_0_compat; lra. }
  destruct (Z.eq_dec N 0%Z) as [Hz|Hnz].
  - rewrite Hz in HN. change (inject_Z 0) with 0 in HN.
    assert (HY : X + (1 # 2) == inject_Z E).
    { assert (H2 : (X + (1 # 2) - inject_Z E) * (2 * inject_Z b) == 0)
        by (by rewrite <- HN).
      apply Qmult_integral in H2 as [H2|H2]; lra. }
    destruct (Qlt_le_dec (p + (1 # 2)) (inject_Z E)) as [Hbelow|Habove].
    + right. split; [exists E; unfold N in Hz; lia|].
      apply Qfloor_unique; rewrite inject_Z_sub; change (inject_Z 1) with 1; lra.
    + left. apply Qfloor_unique; lra.
  - left.
    assert (HN1 : 1 <= (X + (1 # 2) - inject_Z E) * (2 * inject_Z b)).
    { rewrite <- HN. change 1 with (inject_Z 1). rewrite <- Zle_Qle. lia. }
    assert (HNlt : (N < 2 * b)%Z).
    { rewrite Zlt_Qlt, HN, inject_Z_mult. change (inject_Z 2) with 2.
      rewrite <- (Qmult_1_l (2 * inject_Z b)) at 2.
      apply Qmult_lt_compat_r; lra. }
    assert (HN2 : (X + (1 # 2) - inject_Z E) * (2 * inject_Z b) <= 2 * inject_Z b - 1).
    { rewrite <- HN. change 2 with (inject_Z 2). change 1 with (inject_Z 1).
      rewrite <- inject_Z_mult, <- inject_Z_sub, <- Zle_Qle. lia. }
    assert (Hlo' : inject_Z E + (1 # 8589934592) <= X + (1 # 2)).
    { destruct (Qlt_le_dec (X + (1 # 2)) (inject_Z E + (1 # 8589934592))) as [Hlt|]; [|done].
      assert (Hc : (X + (1 # 2) - inject_Z E) * (2 * inject_Z b)
                   <= (1 # 8589934592) * (2 * inject_Z b)).
      { apply Qmult_le_compat_r; lra. }
      lra. }
    assert (Hhi' : X + (1 # 2) <= inject_Z E + 1 - (1 # 8589934592)).
    { destruct (Qlt_le_dec (inject_Z E + 1 - (1 # 8589934592)) (X + (1 # 2))) as [Hlt|]; [|done].
      assert (Hc : (1 - (1 # 8589934592)) * (2 * inject_Z b)
                   <= (X + (1 # 2) - inject_Z E) * (2 * inject_Z b)).
      { apply Qmult_le_compat_r; lra. }
      lra. }
    apply Qfloor_unique; lra.
Qed.
End Float64Facts.

(** ** Statistics *)

Lemma filter_length_Permutation {A : Type} (f : A → bool) (l l' : list A) :
  l ≡ₚ l' → length (List.filter f l) = length (List.filter f l').
Proof.
  induction 1 as [|x l l' _ IH|x y l|l l' l'' _ IH1 _ IH2]; simpl.
  - done.
  - destruct (f x); simpl; by rewrite IH.
  - by destruct (f x), (f y).
  - by rewrite IH1.
Qed.

(** The length of [Object.values(user).filter(f)] is the number of
    annotation records that satisfy [f]. *)
Lemma Object_values_count (f : UserSpecies.t → bool) (u : gmap string UserSpecies.t) :
  length (List.filter f (Object_values u))
  = size (filter (λ kv : string * UserSpecies.t, f kv.2 = true) u).
Proof.
  unfold Object_values.
  induction u as [|i x m Hi _ IH] using map_first_key_ind.
  - by rewrite map_to_list_empty, map_filter_empty, map_size_empty.
  - rewrite (filter_length_Permutation f _ (x :: (map_to_list m).*2)).
    2:{ by rewrite map_to_list_insert. }
    simpl. destruct (f x) eqn:Hx.
    + rewrite map_filter_insert_True by done.
      rewrite map_size_insert_None by (by apply map_lookup_filter_None_2; left).
      simpl. by rewrite IH.
    + rewrite map_filter_insert_not'; [done| |].
      * simpl. congruence.
      * intros y Hy. congruence.
Qed.

Lemma seen_keys_bound (species : list Species.t) (u : gmap string UserSpecies.t) :
  (∀ i r, u !! i = Some r → UserSpecies.seen r = true →
          ∃ s, s ∈ species ∧ Species.id s = i) →
  (size (filter (λ kv : string * UserSpecies.t, UserSpecies.seen kv.2 = true) u)
   ≤ length species)%nat.
Proof.
  intros Hkeys.
  set (m := filter (λ kv : string * UserSpecies.t, UserSpecies.seen kv.2 = true) u).
  rewrite <- (size_dom (D := gset string) m).
  unfold size, set_size. simpl.
  rewrite <- (length_fmap Species.id species).
  apply submseteq_length, NoDup_submseteq; [apply NoDup_elements|].
  intros i Hi. apply elem_of_elements, elem_of_dom in Hi as [r Hr].
  apply map_lookup_filter_Some in Hr as [Hr Hseen].
  destruct (Hkeys i r Hr Hseen) as (s & Hs & <-).
  by apply list_elem_of_fmap_2.
Qed.

Lemma stats_pct (species : list Species.t) (u : gmap string UserSpecies.t) :
  pct (stats species u)
  = if negb (total (stats species u) =? 0)
    then Float64.Math_round
           (Float64.mul
              (Float64.div (inject_Z (seen (stats species u)))
                 (inject_Z (total (stats species u))))
              (inject_Z 100))
    else 0.
Proof. reflexivity. Qed.

Lemma stats_seen (species : list Species.t) (u : gmap string UserSpecies.t) :
  seen (stats species u)
  = Z.of_nat (size (filter (λ kv : string * UserSpecies.t,
                              UserSpecies.seen kv.2 = true) u)).
Proof. unfold stats. cbn [seen]. by rewrite Object_values_count. Qed.

Lemma stats_total (species : list Species.t) (u : gmap string UserSpecies.t) :
  total (stats species u) = Z.of_nat (length species).
Proof. reflexivity. Qed.

(** C7 (as amended).  For every catalog and annotation map the total is
    the catalog size, the seen count is the number of annotation records
    with the seen flag, and the percentage is 0 for an empty catalog and
    [Math.round((seen / total) * 100)], computed on Numbers, otherwise.
    When every annotation marked seen is keyed by the identifier of a
    catalog species, the seen count is at most the total, the percentage is
    between 0 and 100 and, for a catalog of fewer than [2^32] species, it is
    round(seen / total × 100) in exact arithmetic, a half rounded up, except
    that where 100 × seen / total falls exactly between two integers it may
    be the lower of the two. *)
Theorem stats_bounds (species : list Species.t) (u : gmap string UserSpecies.t) :
  let st := stats species u in
  total st = Z.of_nat (length species)
  ∧ seen st
    = Z.of_nat (size (filter (λ kv : string * UserSpecies.t,
                                UserSpecies.seen kv.2 = true) u))
  ∧ (total st = 0 → pct st = 0)
  ∧ (total st ≠ 0 →
     pct st
     = Float64.Math_round
         (Float64.mul (Float64.div (inject_Z (seen st)) (inject_Z (total st)))
            (inject_Z 100)))
  ∧ ((∀ i r, u !! i = Some r → UserSpecies.seen r = true →
             ∃ s, s ∈ species ∧ Species.id s = i) →
     seen st ≤ total st
     ∧ 0 ≤ pct st ≤ 100
     ∧ (0 < total st < 2 ^ 32 →
        pct st = exactPercent (seen st) (total st)
        ∨ ((2 * total st | 200 * seen st + total st)
           ∧ pct st = exactPercent (seen st) (total st) - 1))).
Proof.
  intros st. subst st.
  assert (H0 : 0 ≤ seen (stats species u)) by (rewrite stats_seen; lia).
  assert (Ht : 0 ≤ total (stats species u)) by (rewrite stats_total; lia).
  split_and!; [apply stats_total|apply stats_seen| | |].
  - intros Hz. by rewrite stats_pct, Hz.
  - intros Hne. rewrite stats_pct.
    by destruct (Z.eqb_spec (total (stats species u)) 0).
  - intros Hkeys.
    assert (Hle : seen (stats species u) ≤ total (stats species u)).
    { rewrite stats_seen, stats_total. apply Nat2Z.inj_le. by apply seen_keys_bound. }
    rewrite stats_pct. split_and!; [done| | |].
    + destruct (Z.eqb_spec (total (stats species u)) 0); cbn [negb]; [lia|].
      apply percent_bounds; lia.
    + destruct (Z.eqb_spec (total (stats species u)) 0); cbn [negb]; [lia|].
      apply percent_bounds; lia.
    + intros Hb.
      destruct (Z.eqb_spec (total (stats species u)) 0); cbn [negb]; [lia|].
      apply percent_exact; lia.
Qed.

Lemma stats_bounds_witness :
  seen (stats Sample.catalog Sample.annotations)
  ≤ total (stats Sample.catalog Sample.annotations)
  ∧ 0 ≤ pct (stats Sample.catalog Sample.annotations) ≤ 100.
Proof.
  assert (Hkeys : ∀ i r, Sample.annotations !! i = Some r →
                         UserSpecies.seen r = true →
                         ∃ s, s ∈ Sample.catalog ∧ Species.id s = i).
  { intros i r Hl _. unfold Sample.annotations in Hl.
    apply lookup_insert_Some in Hl as [[<- _]|[_ Hl]].
    { exists Sample.kite. split; [|reflexivity]. apply list_elem_of_here. }
    apply lookup_insert_Some in Hl as [[<- _]|[_ Hl]].
    { exists Sample.limpkin. split; [|reflexivity].
      do 5 apply list_elem_of_further. apply list_elem_of_here. }
    by rewrite lookup_empty in Hl. }
  destruct (stats_bounds Sample.catalog Sample.annotations)
    as (_ & _ & _ & _ & Hb).
  destruct (Hb Hkeys) as (Hle & Hpct & _).
  exact (conj Hle Hpct).
Defined.

Example stats_sample :
  stats Sample.catalog Sample.annotations = mkStats 7 2 1 29.
Proof. by vm_compute. Qed.

(** [Float64] computes what the kernel's binary64 numbers compute, on every
    seen count up to a total of 60. *)
Example Float64_agrees_with_binary64 :
  forallb (λ p, Binary64.agrees p.1 p.2) (Binary64.pairs 60) = true.
Proof. by vm_compute. Qed.

(** The rounding is the one of binary64 arithmetic: 23 of 40 is 57 per
    cent, since [(23 / 40) * 100] is just below 57.5 as a Number. *)
Example percent_23_of_40 :
  Float64.Math_round
    (Float64.mul (Float64.div (inject_Z 23) (inject_Z 40)) (inject_Z 100)) = 57.
Proof. by vm_compute. Qed.

(** C7 as stated fails: annotations outlive the catalog they were made
    against.  While the catalog is still empty, or when it is the
    one-species fallback, two stored seen annotations give a seen count
    above the total, and with the fallback a percentage of 200.  And the
    percentage is not always round(seen / total × 100): with 23 of 40
    species seen it is 57, where exact rounding of 57.5 gives 58. *)
Lemma stats_bounds_counterexample :
  ¬ (seen (stats [] Sample.annotations) ≤ total (stats [] Sample.annotations))
  ∧ ¬ (seen (stats [Sample.kite] Sample.annotations)
       ≤ total (stats [Sample.kite] Sample.annotations))
  ∧ pct (stats [Sample.kite] Sample.annotations) = 200
  ∧ ¬ (0 ≤ pct (stats [Sample.kite] Sample.annotations) ≤ 100)
  ∧ stats (Sample.numbered 40) (Sample.seenAll (Sample.numbered 23))
    = mkStats 40 23 0 57
  ∧ exactPercent 23 40 = 58.
Proof.
  assert (H0 : stats [] Sample.annotations = mkStats 0 2 1 0) by (by vm_compute).
  assert (H1 : stats [Sample.kite] Sample.annotations = mkStats 1 2 1 200)
    by (by vm_compute).
  rewrite H0, H1. simpl.
  split_and!; [lia|lia|done|lia|by vm_compute|by vm_compute].
Qed.

(** * Further properties *)

(** ** Slugs *)

Lemma isSlugUnit_hyphen : isSlugUnit "-" = false.
Proof. reflexivity. Qed.

Lemma isSlugUnit_not_hyphen (c : ascii) : isSlugUnit c = true → c ≠ "-"%char.
Proof. intros Hc ->. by rewrite isSlugUnit_hyphen in Hc. Qed.

Lemma collapseRuns_hyphenated (r : bool) (s : string) :
  hyphenated r (collapseRuns r s).
Proof.
  revert r. induction s as [|c s IH]; intros r; simpl; [done|].
  destruct (isSlugUnit c) eqn:Hc; simpl.
  - split_and!; [by left|by intros _; apply isSlugUnit_not_hyphen|].
    rewrite bool_decide_eq_false_2 by by apply isSlugUnit_not_hyphen. apply IH.
  - destruct r; simpl; [apply IH|].
    split_and!; [by right|done|apply IH].
Qed.

Lemma stripLeadingHyphen_hyphenated (s : string) :
  hyphenated false s → hyphenated true (stripLeadingHyphen s).
Proof.
  destruct s as [|c s]; simpl; [done|]. intros (Hc & _ & Hs).
  case_bool_decide as Heq; [done|]. simpl.
  rewrite bool_decide_eq_false_2 by done. done.
Qed.

Lemma hyphenated_weaken (r : bool) (s : string) :
  hyphenated r s → hyphenated false s.
Proof. destruct s; simpl; [done|]. intros (? & _ & ?). done. Qed.

Lemma stripTrailingHyphen_hyphenated (r : bool) (s : string) :
  hyphenated r s → hyphenated r (stripTrailingHyphen s).
Proof.
  revert r. induction s as [|c s IH]; intros r; [done|].
  intros (Hc & Hr & Hs). destruct s as [|d s].
  - simpl. case_bool_decide; simpl; done.
  - change (hyphenated r (String c (stripTrailingHyphen (String d s)))).
    simpl hyphenated at 1. split_and!; [done|done|]. by apply IH.
Qed.

Lemma stripTrailingHyphen_empty (s : string) :
  stripTrailingHyphen s = "" → s = "" ∨ s = "-".
Proof.
  destruct s as [|c [|d s]]; simpl; [by left| |done].
  case_bool_decide; [subst; by right|done].
Qed.

Lemma stripTrailingHyphen_no_trail (r : bool) (s pre : string) :
  hyphenated r s → stripTrailingHyphen s ≠ pre +:+ "-".
Proof.
  revert r pre. induction s as [|c s IH]; intros r pre Hs Heq.
  - by destruct pre.
  - destruct Hs as (Hc & Hr & Hs). destruct s as [|d s].
    + simpl in Heq. case_bool_decide as Hh.
      * by destruct pre.
      * destruct pre as [|a [|b pre]]; [|discriminate Heq..].
        injection Heq as Heq. done.
    + change (String c (stripTrailingHyphen (String d s)) = pre +:+ "-") in Heq.
      remember (stripTrailingHyphen (String d s)) as t eqn:Ht.
      destruct pre as [|a pre].
      * injection Heq as Hcd Hnil. subst c t.
        apply stripTrailingHyphen_empty in Hnil as [?|[= -> ->]]; [done|].
        destruct Hs as (_ & Hd & _). by apply Hd.
      * injection Heq as _ Heq. subst t. by eapply IH.
Qed.

Lemma hyphenated_units (r : bool) (s : string) :
  hyphenated r s →
  Forall (λ c, isSlugUnit c = true ∨ c = "-"%char) (list_ascii_of_string s).
Proof.
  revert r. induction s as [|c s IH]; intros r; simpl; [constructor|].
  intros (Hc & _ & Hs). constructor; [done|by eapply IH].
Qed.

Lemma hyphenated_no_double (r : bool) (s : string) :
  hyphenated r s → ¬ occursIn "--" s.
Proof.
  intros Hs (pre & post & ->). revert r Hs.
  induction pre as [|a pre IH]; intros r; simpl.
  - intros (_ & _ & _ & Hd & _). by apply Hd.
  - intros (_ & _ & Hs). by eapply IH.
Qed.

Lemma slugify_hyphenated (s : string) : hyphenated true (slugify s).
Proof.
  unfold slugify.
  apply stripTrailingHyphen_hyphenated, stripLeadingHyphen_hyphenated.
  apply collapseRuns_hyphenated.
Qed.

(** X1.  A slug is made of the units [a-z], [0-9] and the hyphen; it neither
    begins nor ends with a hyphen and has no two hyphens in a row. *)
Theorem slugify_shape (s : string) :
  Forall (λ c, isSlugUnit c = true ∨ c = "-"%char) (list_ascii_of_string (slugify s))
  ∧ (∀ post : string, slugify s ≠ "-" +:+ post)
  ∧ (∀ pre : string, slugify s ≠ pre +:+ "-")
  ∧ ¬ occursIn "--" (slugify s).
Proof.
  pose proof (slugify_hyphenated s) as Hs. split_and!.
  - by eapply hyphenated_units.
  - intros post Heq. rewrite Heq in Hs.
    destruct Hs as (_ & Hh & _). by apply Hh.
  - intros pre. unfold slugify. eapply stripTrailingHyphen_no_trail.
    apply stripLeadingHyphen_hyphenated, collapseRuns_hyphenated.
  - by eapply hyphenated_no_double.
Qed.

Example slugify_samples :
  slugify "Snail Kite" = "snail-kite"
  ∧ slugify "  Swallow-tailed  Kite! " = "swallow-tailed-kite"
  ∧ slugify "---" = ""
  ∧ slugify "Florida Scrub-Jay (2)" = "florida-scrub-jay-2".
Proof. by vm_compute. Qed.

Lemma lowerUnit_slug (c : ascii) :
  isSlugUnit c = true ∨ c = "-"%char → JsString.lowerUnit c = c.
Proof.
  intros [Hc| ->]; [|reflexivity].
  unfold JsString.lowerUnit, isSlugUnit in *. cbv zeta in *.
  destruct (Z.leb_spec 65 (JsString.charCode c)), (Z.leb_spec (JsString.charCode c) 90),
    (Z.leb_spec 192 (JsString.charCode c)), (Z.leb_spec (JsString.charCode c) 222),
    (Z.leb_spec 97 (JsString.charCode c)), (Z.leb_spec (JsString.charCode c) 122),
    (Z.leb_spec 48 (JsString.charCode c)), (Z.leb_spec (JsString.charCode c) 57);
    simpl in *; try done; lia.
Qed.

Lemma toLowerCase_hyphenated (r : bool) (s : string) :
  hyphenated r s → JsString.toLowerCase s = s.
Proof.
  revert r. induction s as [|c s IH]; intros r; simpl; [done|].
  intros (Hc & _ & Hs). rewrite (lowerUnit_slug c Hc). f_equal. by eapply IH.
Qed.

Lemma collapseRuns_hyphenated_id (r r' : bool) (s : string) :
  hyphenated r s → (r' = true → r = true) → collapseRuns r' s = s.
Proof.
  revert r r'. induction s as [|c s IH]; intros r r'; simpl; [done|].
  intros (Hc & Hr & Hs) Hrr. destruct (isSlugUnit c) eqn:Hslug.
  - f_equal. eapply IH; [exact Hs|done].
  - destruct Hc as [?| ->]; [congruence|].
    destruct r'; [exfalso; by apply Hr; auto|].
    f_equal. eapply IH; [exact Hs|done].
Qed.

Lemma stripLeadingHyphen_id (s : string) :
  hyphenated true s → stripLeadingHyphen s = s.
Proof.
  destruct s as [|c s]; simpl; [done|]. intros (_ & Hc & _).
  rewrite bool_decide_eq_false_2; [done|by apply Hc].
Qed.

Lemma stripTrailingHyphen_id (s : string) :
  (∀ pre : string, s ≠ pre +:+ "-") → stripTrailingHyphen s = s.
Proof.
  induction s as [|c s IH]; intros Hno; [done|].
  destruct s as [|d s].
  - simpl. case_bool_decide as Hc; [|done]. subst. by destruct (Hno "").
  - change (String c (stripTrailingHyphen (String d s)) = String c (String d s)).
    f_equal. apply IH. intros pre Heq. apply (Hno (String c pre)).
    by rewrite Heq.
Qed.

(** X2.  [slugify] is idempotent: a slug is its own slug. *)
Theorem slugify_idempotent (s : string) : slugify (slugify s) = slugify s.
Proof.
  pose proof (slugify_hyphenated s) as Hs.
  assert (Hno : ∀ pre : string, slugify s ≠ pre +:+ "-").
  { intros pre. unfold slugify. eapply stripTrailingHyphen_no_trail.
    apply stripLeadingHyphen_hyphenated, collapseRuns_hyphenated. }
  revert Hs Hno. generalize (slugify s). intros t Ht Hno.
  unfold slugify.
  rewrite (toLowerCase_hyphenated true t Ht).
  rewrite (collapseRuns_hyphenated_id true false t Ht) by done.
  rewrite (stripLeadingHyphen_id t Ht).
  by apply stripTrailingHyphen_id.
Qed.

Lemma toLowerCase_units (s : string) :
  list_ascii_of_string (JsString.toLowerCase s)
  = List.map JsString.lowerUnit (list_ascii_of_string s).
Proof. induction s as [|c s IH]; simpl; [done|]. by rewrite IH. Qed.

Lemma collapseRuns_no_slug (s : string) :
  Forall (λ c, isSlugUnit c = false) (list_ascii_of_string s) →
  collapseRuns true s = ""
  ∧ (collapseRuns false s = "" ∨ collapseRuns false s = "-").
Proof.
  induction s as [|c s IH]; simpl; [by auto|].
  intros [Hc Hs]%Forall_cons_iff. rewrite Hc.
  destruct (IH Hs) as [-> _]. by auto.
Qed.

Lemma stripped_empty (r : bool) (s : string) :
  stripTrailingHyphen (stripLeadingHyphen (collapseRuns r s)) = "" →
  Forall (λ c, isSlugUnit c = false) (list_ascii_of_string s).
Proof.
  revert r. induction s as [|c s IH]; intros r; simpl; [constructor|].
  destruct (isSlugUnit c) eqn:Hc.
  - simpl. rewrite bool_decide_eq_false_2 by by apply isSlugUnit_not_hyphen.
    intros [?|Heq]%stripTrailingHyphen_empty; [done|].
    injection Heq as -> _. by rewrite isSlugUnit_hyphen in Hc.
  - intros Heq. constructor; [done|]. destruct r.
    + by apply (IH true).
    + simpl in Heq. apply (IH true).
      by rewrite (stripLeadingHyphen_id _ (collapseRuns_hyphenated true s)).
Qed.

(** X3.  The slug of a name is empty exactly when no unit of the name
    lower-cases to one of [a-z0-9]. *)
Theorem slugify_empty (s : string) :
  slugify s = ""
  ↔ Forall (λ c, isSlugUnit (JsString.lowerUnit c) = false) (list_ascii_of_string s).
Proof.
  assert (Hunits : Forall (λ c, isSlugUnit c = false)
                     (list_ascii_of_string (JsString.toLowerCase s))
                   ↔ Forall (λ c, isSlugUnit (JsString.lowerUnit c) = false)
                       (list_ascii_of_string s)).
  { rewrite toLowerCase_units. by rewrite Forall_map. }
  rewrite <- Hunits. unfold slugify. split.
  - apply stripped_empty.
  - intros Hs. destruct (collapseRuns_no_slug _ Hs) as [_ [->| ->]]; reflexivity.
Qed.

(** ** Loading the catalog *)

(** X4.  A decoded catalog keeps its length, its names in order and every
    supplied non-empty identifier; whether the fetch succeeds or not, every
    loaded species whose name has a unit that lower-cases to one of
    [a-z0-9] has a non-empty identifier, and a failed fetch leaves a
    catalog that is not empty. *)
Theorem loadSpecies_ids (response : option (list RawSpecies.t)) :
  (∀ data : list RawSpecies.t,
     response = Some data →
     length (loadSpecies response) = length data
     ∧ List.map Species.common (loadSpecies response) = List.map RawSpecies.common data
     ∧ ∀ (k : nat) (r : RawSpecies.t) (i : string),
         data !! k = Some r → RawSpecies.id r = Some i → i ≠ "" →
         Species.id <$> (loadSpecies response !! k) = Some i)
  ∧ (∀ s : Species.t,
       s ∈ loadSpecies response →
       Exists (λ c, isSlugUnit (JsString.lowerUnit c) = true)
         (list_ascii_of_string (Species.common s)) →
       Species.id s ≠ "")
  ∧ (response = None → loadSpecies response ≠ []).
Proof.
  split_and!.
  - intros data ->. simpl. split_and!.
    + apply length_map.
    + rewrite List.map_map. reflexivity.
    + intros k r i Hk Hi Hne.
      change (List.map normalizeSpecies data) with (normalizeSpecies <$> data).
      rewrite list_lookup_fmap, Hk. simpl. unfold normalizeSpecies. rewrite Hi. simpl.
      f_equal. apply truthy_spec in Hne. by rewrite Hne.
  - intros s Hs Hex Hid.
    assert (Hslug : slugify (Species.common s) = "" →
                    Forall (λ c, isSlugUnit (JsString.lowerUnit c) = false)
                      (list_ascii_of_string (Species.common s))).
    { intros Hnil. apply stripped_empty in Hnil.
      rewrite toLowerCase_units in Hnil. by apply Forall_map in Hnil. }
    assert (Hno : ¬ Forall (λ c, isSlugUnit (JsString.lowerUnit c) = false)
                      (list_ascii_of_string (Species.common s))).
    { intros Hall. apply Exists_exists in Hex as (c & Hc & Hslugc).
      rewrite Forall_forall in Hall. specialize (Hall c Hc). congruence. }
    destruct response as [data|]; simpl in Hs.
    + change (List.map normalizeSpecies data) with (normalizeSpecies <$> data) in Hs.
      apply list_elem_of_fmap in Hs as (r & -> & _).
      unfold normalizeSpecies in Hid, Hslug, Hno. simpl in *.
      destruct (RawSpecies.id r) as [i|]; [|by auto].
      destruct (JsString.truthy i) eqn:Hi; [|by auto].
      apply truthy_spec in Hi. done.
    + apply list_elem_of_singleton in Hs. subst s. done.
  - intros ->. done.
Qed.

(** ** Navigation *)

Lemma find_first_id (species : list Species.t) (s : Species.t) :
  s ∈ species →
  ∃ s', List.find (λ x, bool_decide (Species.id x = Species.id s)) species = Some s'
        ∧ Species.id s' = Species.id s ∧ s' ∈ species.
Proof.
  induction 1 as [s l|s y l _ IH]; simpl.
  - exists s. rewrite bool_decide_eq_true_2 by done. split_and!; [done|done|left].
  - case_bool_decide as Hy.
    + exists y. split_and!; [done|done|left].
    + destruct IH as (s' & -> & ? & ?). exists s'. split_and!; [done|done|by right].
Qed.

Lemma NoDup_ids_eq (species : list Species.t) (s s' : Species.t) :
  NoDup (Species.id <$> species) → s ∈ species → s' ∈ species →
  Species.id s' = Species.id s → s' = s.
Proof.
  induction species as [|x l IH]; [by intros _ ?%elem_of_nil|].
  rewrite fmap_cons, NoDup_cons. intros [Hx Hl].
  rewrite !elem_of_cons. intros [->|Hs] [->|Hs'] Hid; [done| | |by apply IH].
  - destruct Hx. rewrite <- Hid. by apply list_elem_of_fmap_2.
  - destruct Hx. rewrite Hid. by apply list_elem_of_fmap_2.
Qed.

Lemma find_first (i : string) (pre post : list Species.t) (s : Species.t) :
  Species.id s = i → (∀ x, x ∈ pre → Species.id x ≠ i) →
  List.find (λ x, bool_decide (Species.id x = i)) (pre ++ s :: post)%list = Some s.
Proof.
  intros Hs. induction pre as [|y pre IH]; intros Hpre; simpl.
  - by rewrite bool_decide_eq_true_2.
  - rewrite bool_decide_eq_false_2 by (apply Hpre; left).
    apply IH. intros x Hx. apply Hpre. by right.
Qed.

(** X5.  Opening the detail of an identifier shows the detail screen of the
    first catalog species with that identifier, whatever comes after it in
    the catalog, and the home screen when no catalog species has the
    identifier, so also for the empty catalog; with unique identifiers,
    opening the detail of a catalog species shows that species. *)
Theorem openDetail_screen (species : list Species.t) (nav : Nav) (i : string) :
  (∀ (pre post : list Species.t) (s : Species.t),
     species = (pre ++ s :: post)%list →
     Species.id s = i →
     (∀ x, x ∈ pre → Species.id x ≠ i) →
     screen species (openDetail i nav) = DetailScreen s)
  ∧ ((∀ x, x ∈ species → Species.id x ≠ i) →
     screen species (openDetail i nav) = HomeScreen)
  ∧ (species = [] → screen species (openDetail i nav) = HomeScreen)
  ∧ (∀ s : Species.t,
       NoDup (Species.id <$> species) → s ∈ species → Species.id s = i →
       screen species (openDetail i nav) = DetailScreen s).
Proof.
  assert (Hnone : (∀ x, x ∈ species → Species.id x ≠ i) →
                  screen species (openDetail i nav) = HomeScreen).
  { intros Hno. unfold screen, activeSpecies, openDetail. simpl.
    destruct (List.find _ species) as [x|] eqn:Hfind; [|done].
    apply find_some in Hfind as [Hin Hx]. apply bool_decide_eq_true in Hx.
    apply list_elem_of_In in Hin. by destruct (Hno x Hin). }
  split_and!.
  - intros pre post s -> Hs Hpre. unfold screen, activeSpecies, openDetail. simpl.
    by rewrite (find_first i pre post s Hs Hpre).
  - exact Hnone.
  - intros ->. apply Hnone. by intros x ?%elem_of_nil.
  - intros s Hnd Hs Hid. subst i.
    destruct (find_first_id species s Hs) as (s' & Hfind & Hid & Hin).
    unfold screen, activeSpecies, openDetail. simpl. rewrite Hfind.
    f_equal. by eapply NoDup_ids_eq.
Qed.

Lemma openDetail_screen_witness :
  screen Sample.catalog (openDetail "barred-owl" (mkNav RList None))
  = DetailScreen Sample.owl.
Proof.
  apply (proj1 (openDetail_screen Sample.catalog (mkNav RList None) "barred-owl")
           [Sample.kite; Sample.jay; Sample.spoonbill; Sample.falcon]
           [Sample.limpkin; Sample.eagle] Sample.owl).
  - reflexivity.
  - reflexivity.
  - intros x Hx. rewrite !elem_of_cons, elem_of_nil in Hx.
    destruct Hx as [->|[->|[->|[->|[]]]]]; discriminate.
Defined.

(** With a duplicated identifier it is the first of the two species that
    is shown. *)
Example openDetail_duplicate :
  screen [Sample.plain "limpkin" "Limpkin"; Sample.plain "limpkin" "Aramus"]
    (openDetail "limpkin" (mkNav RHome None))
  = DetailScreen (Sample.plain "limpkin" "Limpkin").
Proof. reflexivity. Qed.

(** ** Annotations and the statistics *)

Lemma Object_values_insert (u : gmap string UserSpecies.t) (i : string)
    (r : UserSpecies.t) :
  u !! i = None → Object_values (<[i := r]> u) ≡ₚ r :: Object_values u.
Proof.
  intros Hi. unfold Object_values. by rewrite map_to_list_insert.
Qed.

(** The number of values that satisfy [P], before and after one entry is
    written: the entry that was there leaves the count, the written one
    joins it. *)
Lemma count_insert (P : UserSpecies.t → bool) (u : gmap string UserSpecies.t)
    (i : string) (r' : UserSpecies.t) :
  (length (List.filter P (Object_values (<[i := r']> u)))
   + (match u !! i with Some r => if P r then 1 else 0 | None => 0 end)
   = length (List.filter P (Object_values u)) + (if P r' then 1 else 0))%nat.
Proof.
  assert (Hdel : delete i u !! i = None) by apply lookup_delete_eq.
  rewrite <- (insert_delete_eq u i r').
  rewrite (filter_length_Permutation P _ _ (Object_values_insert _ i r' Hdel)).
  destruct (u !! i) as [r|] eqn:Hi.
  - rewrite <- (insert_delete_id u i r Hi) at 2.
    rewrite (filter_length_Permutation P _ _ (Object_values_insert _ i r Hdel)).
    simpl. destruct (P r), (P r'); simpl; lia.
  - rewrite (delete_id u i Hi). simpl. destruct (P r'); simpl; lia.
Qed.

Lemma count_insert_row (P : UserSpecies.t → bool) (u : gmap string UserSpecies.t)
    (i : string) (r' : UserSpecies.t) :
  P (UserSpecies.mk i false false None None None None) = false →
  Z.of_nat (length (List.filter P (Object_values (<[i := r']> u))))
  = Z.of_nat (length (List.filter P (Object_values u)))
    + (if P r' then 1 else 0) - (if P (ensureUserRow u i) then 1 else 0).
Proof.
  intros Hdef. pose proof (count_insert P u i r') as Hc.
  unfold ensureUserRow. destruct (u !! i) as [r|].
  - destruct (P r), (P r'); lia.
  - rewrite Hdef. destruct (P r'); lia.
Qed.

(** X6.  Typing into one of the four inputs of the detail screen stores the
    typed value in that field of the species' record, which is what the
    input then shows; the other three fields, absent ones staying absent,
    the identifier, the seen and target flags, the annotations of other
    species, the challenge and the statistics of any catalog stay as they
    were. *)
Theorem setField_frame (f : Field) (i v : string) (st : State) :
  let r := ensureUserRow (user st) i in
  let r' := ensureUserRow (user (setField f i v st)) i in
  user (setField f i v st) !! i = Some r'
  ∧ fieldOf f r' = Some v
  ∧ shownField f r' = v
  ∧ (∀ g : Field, g ≠ f → fieldOf g r' = fieldOf g r)
  ∧ UserSpecies.id r' = UserSpecies.id r
  ∧ UserSpecies.seen r' = UserSpecies.seen r
  ∧ UserSpecies.target r' = UserSpecies.target r
  ∧ (∀ j : string, j ≠ i → user (setField f i v st) !! j = user st !! j)
  ∧ challenge (setField f i v st) = challenge st
  ∧ ∀ species : list Species.t,
      stats species (user (setField f i v st)) = stats species (user st).
Proof.
  intros r r'. subst r'. unfold setField. simpl.
  rewrite ensureUserRow_insert. fold r.
  split_and!.
  - by rewrite lookup_insert_eq.
  - by destruct f.
  - by destruct f.
  - intros g Hg. by destruct f, g.
  - by destruct f.
  - by destruct f.
  - by destruct f.
  - intros j Hj. by rewrite lookup_insert_ne.
  - done.
  - intros species. unfold stats.
    assert (Hseen : Z.of_nat (length (List.filter UserSpecies.seen
                       (Object_values (<[i := with_field f v r]> (user st)))))
                    = Z.of_nat (length (List.filter UserSpecies.seen
                        (Object_values (user st))))).
    { rewrite count_insert_row by done. fold r.
      assert (UserSpecies.seen (with_field f v r) = UserSpecies.seen r) as ->
        by by destruct f.
      lia. }
    assert (Htarget : Z.of_nat (length (List.filter UserSpecies.target
                         (Object_values (<[i := with_field f v r]> (user st)))))
                      = Z.of_nat (length (List.filter UserSpecies.target
                          (Object_values (user st))))).
    { rewrite count_insert_row by done. fold r.
      assert (UserSpecies.target (with_field f v r) = UserSpecies.target r) as ->
        by by destruct f.
      lia. }
    by rewrite Hseen, Htarget.
Qed.

(** X7.  Toggling seen moves the seen count by exactly one, up when the
    species was not seen and down when it was; the total and the target
    count do not move. *)
Theorem toggleSeen_stats (species : list Species.t) (i : string) (st : State) :
  seen (stats species (user (toggleSeen i st)))
  = seen (stats species (user st))
    + (if UserSpecies.seen (ensureUserRow (user st) i) then -1 else 1)
  ∧ targeted (stats species (user (toggleSeen i st)))
    = targeted (stats species (user st))
  ∧ total (stats species (user (toggleSeen i st))) = total (stats species (user st)).
Proof.
  rewrite toggleSeen_user. unfold stats. cbn [seen targeted total].
  rewrite !count_insert_row by done.
  destruct (ensureUserRow (user st) i) as [? [] [] ? ? ? ?]; simpl; split_and!; lia.
Qed.

(** X8.  Toggling target moves the target count by exactly one, up when the
    species was no target and down when it was; the total, the seen count
    and the percentage do not move. *)
Theorem toggleTarget_stats (species : list Species.t) (i : string) (st : State) :
  targeted (stats species (user (toggleTarget i st)))
  = targeted (stats species (user st))
    + (if UserSpecies.target (ensureUserRow (user st) i) then -1 else 1)
  ∧ seen (stats species (user (toggleTarget i st))) = seen (stats species (user st))
  ∧ total (stats species (user (toggleTarget i st))) = total (stats species (user st))
  ∧ pct (stats species (user (toggleTarget i st))) = pct (stats species (user st)).
Proof.
  assert (Hseen : seen (stats species (user (toggleTarget i st)))
                  = seen (stats species (user st))).
  { unfold toggleTarget, stats. cbn [seen user].
    rewrite count_insert_row by done.
    destruct (ensureUserRow (user st) i) as [? [] [] ? ? ? ?]; simpl; lia. }
  split_and!; [|done|done|].
  - unfold toggleTarget, stats. cbn [targeted user].
    rewrite count_insert_row by done.
    destruct (ensureUserRow (user st) i) as [? [] [] ? ? ? ?]; simpl; lia.
  - rewrite !stats_pct, Hseen. reflexivity.
Qed.

(** ** The challenge *)

(** X9.  The Count button never touches the annotations.  While the
    challenge is active, the identifier is not yet completed and fewer than
    100 are, it appends the identifier and changes nothing else; in every
    other case it leaves the whole state as it was. *)
Theorem countPick_contract (i : string) (st : State) :
  user (countPick i st) = user st
  ∧ (ChallengeState.active (challenge st) = true →
     i ∉ ChallengeState.completedIds (challenge st) →
     (length (ChallengeState.completedIds (challenge st)) < 100)%nat →
     challenge (countPick i st)
     = ChallengeState.mk true (ChallengeState.startedAt (challenge st))
         (ChallengeState.completedIds (challenge st) ++ [i]))
  ∧ (ChallengeState.active (challenge st) = false
     ∨ i ∈ ChallengeState.completedIds (challenge st)
     ∨ (100 ≤ length (ChallengeState.completedIds (challenge st)))%nat →
     countPick i st = st).
Proof.
  unfold countPick. split_and!.
  - destruct (negb _); [done|]. destruct (Array_includes _ _); [done|].
    by destruct (_ >=? _).
  - intros Hact Hnin Hlen. rewrite Hact. simpl.
    apply Array_includes_false in Hnin. rewrite Hnin.
    destruct (Z.geb_spec (Z.of_nat (length (ChallengeState.completedIds (challenge st)))) 100);
      [lia|].
    simpl. unfold ChallengeState.push. by rewrite Hact.
  - intros Hcase.
    destruct (ChallengeState.active (challenge st)); simpl; [|done].
    destruct (Array_includes _ i) eqn:Hinc; [done|].
    apply Array_includes_false in Hinc.
    destruct (Z.geb_spec (Z.of_nat (length (ChallengeState.completedIds (challenge st)))) 100);
      [done|].
    destruct Hcase as [?|[?|?]]; [done|done|lia].
Qed.

Lemma step_extends (st : State) (e : Event) :
  clears e = false →
  ChallengeState.active (challenge (step st e)) = ChallengeState.active (challenge st)
  ∧ ChallengeState.startedAt (challenge (step st e))
    = ChallengeState.startedAt (challenge st)
  ∧ (ChallengeState.completedIds (challenge (step st e))
     = ChallengeState.completedIds (challenge st)
     ∨ ∃ i, (e = EToggleSeen i ∨ e = ECount i)
            ∧ ChallengeState.active (challenge st) = true
            ∧ ChallengeState.completedIds (challenge (step st e))
              = (ChallengeState.completedIds (challenge st) ++ [i])%list).
Proof.
  destruct e as [i|i|i|t|]; simpl; intros Hc; try done.
  - destruct (toggleSeen_challenge_cases i st) as [->|(Ha & _ & _ & _ & ->)].
    + split_and!; [done|done|by left].
    + split_and!; [done|done|]. right. exists i. split_and!; [by left|done|done].
  - split_and!; [done|done|by left].
  - destruct (countPick_challenge_cases i st) as [->|(Ha & _ & _ & ->)].
    + split_and!; [done|done|by left].
    + split_and!; [done|done|]. right. exists i. split_and!; [by right|done|done].
Qed.

(** X10.  The completed list is a ratchet: over any sequence of toggles and
    counts (no start, no reset) the list it began with stays, in its order,
    as the beginning of the list it ends with, and the active flag and the
    start time are unchanged. *)
Theorem completed_ratchet (es : list Event) (st : State) :
  Forall (λ e, clears e = false) es →
  ChallengeState.completedIds (challenge st)
    `prefix_of` ChallengeState.completedIds (challenge (run es st))
  ∧ ChallengeState.active (challenge (run es st)) = ChallengeState.active (challenge st)
  ∧ ChallengeState.startedAt (challenge (run es st))
    = ChallengeState.startedAt (challenge st).
Proof.
  intros Hes. revert st. induction Hes as [|e es He _ IH]; intros st; simpl.
  - done.
  - destruct (IH (step st e)) as (Hpre & Hact & Hstart).
    destruct (step_extends st e He) as (Ha & Hs & Hc).
    rewrite Hact, Hstart, Ha, Hs. split_and!; [|done|done].
    etrans; [|exact Hpre].
    destruct Hc as [->|(i & _ & _ & ->)]; [done|]. by apply prefix_app_r.
Qed.

Lemma completed_ratchet_witness :
  let st := startChallenge Sample.morning initialState in
  let es := [EToggleSeen "limpkin"; EToggleSeen "limpkin"; ECount "barred-owl";
             EToggleTarget "limpkin"; EToggleSeen "limpkin"] in
  ChallengeState.completedIds (challenge (toggleSeen "snail-kite" st))
    `prefix_of`
    ChallengeState.completedIds (challenge (run es (toggleSeen "snail-kite" st)))
  ∧ ChallengeState.active (challenge (run es (toggleSeen "snail-kite" st)))
    = ChallengeState.active (challenge (toggleSeen "snail-kite" st))
  ∧ ChallengeState.startedAt (challenge (run es (toggleSeen "snail-kite" st)))
    = ChallengeState.startedAt (challenge (toggleSeen "snail-kite" st)).
Proof.
  intros st es. apply (completed_ratchet es (toggleSeen "snail-kite" st)).
  subst es. repeat constructor.
Defined.

Example completed_ratchet_sample :
  let st := toggleSeen "snail-kite" (startChallenge Sample.morning initialState) in
  ChallengeState.completedIds
    (challenge (run [EToggleSeen "limpkin"; EToggleSeen "limpkin"; ECount "barred-owl";
                     EToggleTarget "limpkin"; EToggleSeen "limpkin"] st))
  = ["snail-kite"; "limpkin"; "barred-owl"].
Proof. by vm_compute. Qed.

(** X11.  While the challenge is inactive, no sequence of toggles and
    counts changes the challenge state. *)
Theorem inactive_challenge_unchanged (es : list Event) (st : State) :
  ChallengeState.active (challenge st) = false →
  Forall (λ e, clears e = false) es →
  challenge (run es st) = challenge st.
Proof.
  intros Hact Hes. revert st Hact. induction Hes as [|e es He _ IH]; intros st Hact; simpl.
  - done.
  - destruct (step_extends st e He) as (Ha & Hs & Hc).
    assert (Heq : challenge (step st e) = challenge st).
    { destruct Hc as [Hc|(i & _ & Htrue & _)]; [|congruence].
      destruct (challenge (step st e)), (challenge st). simpl in *. congruence. }
    rewrite IH; [done|]. by rewrite Heq.
Qed.

Lemma inactive_challenge_unchanged_witness :
  challenge (run [EToggleSeen "limpkin"; ECount "barred-owl"; EToggleTarget "limpkin"]
               initialState)
  = challenge initialState.
Proof.
  apply (inactive_challenge_unchanged
           [EToggleSeen "limpkin"; ECount "barred-owl"; EToggleTarget "limpkin"]
           initialState).
  - reflexivity.
  - repeat constructor.
Defined.

(** X12.  Nothing is completed behind the user's back: an identifier in the
    completed list after a sequence of events was in it before, or is the
    identifier of a toggle-seen or of a count in that sequence. *)
Theorem completed_provenance (es : list Event) (st : State) (i : string) :
  i ∈ ChallengeState.completedIds (challenge (run es st)) →
  i ∈ ChallengeState.completedIds (challenge st)
  ∨ EToggleSeen i ∈ es
  ∨ ECount i ∈ es.
Proof.
  revert st. induction es as [|e es IH]; intros st; simpl; [by left|].
  intros Hi. destruct (IH _ Hi) as [Hin|[Hin|Hin]].
  - destruct (clears e) eqn:Hc.
    + destruct e; try done; simpl in Hin; by apply elem_of_nil in Hin.
    + destruct (step_extends st e Hc) as (_ & _ & [Heq|(j & Hj & _ & Heq)]);
        rewrite Heq in Hin; [by left|].
      apply elem_of_app in Hin as [Hin|Hin]; [by left|].
      apply list_elem_of_singleton in Hin. subst j.
      destruct Hj as [->| ->]; [right; left; left|right; right; left].
  - right. left. by right.
  - right. right. by right.
Qed.

Lemma completed_provenance_witness :
  "limpkin" ∈ ChallengeState.completedIds (challenge initialState)
  ∨ EToggleSeen "limpkin" ∈ [EStart Sample.morning; EToggleSeen "limpkin"]
  ∨ ECount "limpkin" ∈ [EStart Sample.morning; EToggleSeen "limpkin"].
Proof.
  apply (completed_provenance [EStart Sample.morning; EToggleSeen "limpkin"]
           initialState "limpkin").
  vm_compute. left.
Defined.

Lemma challengePct_table :
  forallb
    (λ n : nat,
       Z.min 100
         (Float64.Math_round
            (Float64.mul (Float64.div (inject_Z (Z.of_nat n)) (inject_Z 100))
               (inject_Z 100)))
       =? Z.of_nat n)
    (seq 0 101) = true.
Proof. by vm_compute. Qed.

(** X13.  In every state reached from the empty challenge, the percentage
    of the progress bar is the number of completed species, and so between
    0 and 100: the rounding of [(n / 100) * 100] gives back [n]. *)
Theorem challengePct_reachable (u : gmap string UserSpecies.t) (es : list Event) :
  let c := challenge (run es (mkState u initialChallenge)) in
  challengePct c = challengeProgress c
  ∧ 0 ≤ challengePct c ≤ 100.
Proof.
  intros c.
  assert (Hok : challenge_ok c).
  { apply run_challenge_ok, challenge_ok_empty. }
  destruct Hok as [_ Hlen].
  assert (Heq : challengePct c = challengeProgress c).
  { unfold challengePct, challengeProgress.
    pose proof challengePct_table as Htab. rewrite forallb_forall in Htab.
    apply Z.eqb_eq, (Htab (length (ChallengeState.completedIds c))).
    apply in_seq. lia. }
  split; [done|]. rewrite Heq. unfold challengeProgress. lia.
Qed.

(** ** The log store *)

Lemma trimEnd_idempotent (s : string) :
  JsString.trimEnd (JsString.trimEnd s) = JsString.trimEnd s.
Proof.
  induction s as [|c s IH]; [done|].
  simpl. destruct (JsString.trimEnd s) as [|d r] eqn:Hs.
  - destruct (JsString.isWhiteSpace c) eqn:Hc; [done|]. simpl. by rewrite Hc.
  - change (JsString.trimEnd (String c (String d r)))
      with (match JsString.trimEnd (String d r) with
            | EmptyString =>
                if JsString.isWhiteSpace c then EmptyString else String c EmptyString
            | String a b => String c (String a b)
            end).
    by rewrite IH.
Qed.

Lemma trimStart_trimEnd (s : string) :
  JsString.trimStart s = s → JsString.trimStart (JsString.trimEnd s) = JsString.trimEnd s.
Proof.
  destruct s as [|c s]; [done|]. simpl.
  destruct (JsString.isWhiteSpace c) eqn:Hc.
  - intros Heq. exfalso.
    assert (Hlen : (String.length (JsString.trimStart s) ≤ String.length s)%nat).
    { clear. induction s as [|a s IH]; simpl; [done|].
      destruct (JsString.isWhiteSpace a); simpl; lia. }
    rewrite Heq in Hlen. simpl in Hlen. lia.
  - intros _. destruct (JsString.trimEnd s); simpl; by rewrite Hc.
Qed.

Lemma trimStart_idempotent (s : string) :
  JsString.trimStart (JsString.trimStart s) = JsString.trimStart s.
Proof.
  induction s as [|c s IH]; [done|]. simpl.
  destruct (JsString.isWhiteSpace c) eqn:Hc; [done|]. simpl. by rewrite Hc.
Qed.

Lemma trim_idempotent (s : string) :
  JsString.trim (JsString.trim s) = JsString.trim s.
Proof.
  unfold JsString.trim.
  rewrite (trimStart_trimEnd _ (trimStart_idempotent s)).
  apply trimEnd_idempotent.
Qed.

Lemma trimOrUndefined_trimmed (s : string) : trimmedOption (trimOrUndefined s).
Proof.
  unfold trimmedOption, trimOrUndefined. intros v.
  destruct (JsString.truthy (JsString.trim s)) eqn:Ht; [|done].
  intros [= <-]. apply truthy_spec in Ht. split; [done|apply trim_idempotent].
Qed.

Lemma onSubmit_cases (en : Entropy) (f : LogForm) (logs : list LogEntry.t) :
  onSubmit en f logs = (f, logs)
  ∨ ∃ e : LogEntry.t,
      onSubmit en f logs = (mkLogForm (f_kind f) (f_date f) "" "" "" "" "", e :: logs)
      ∧ LogEntry.id e = uid "log" en
      ∧ wellFormedEntry e.
Proof.
  unfold onSubmit.
  destruct (JsString.truthy (JsString.trim (f_speciesName f))) eqn:Hs; [|by left].
  destruct (JsString.truthy (JsString.trim (f_location f))) eqn:Hl; [|by left].
  right. eexists. split; [reflexivity|]. split; [reflexivity|].
  apply truthy_spec in Hs, Hl.
  unfold wellFormedEntry. simpl.
  split_and!; try apply trimOrUndefined_trimmed; try apply trim_idempotent.
  - intros Hb. apply trim_empty in Hb. by rewrite trim_idempotent in Hb.
  - intros Hb. apply trim_empty in Hb. by rewrite trim_idempotent in Hb.
Qed.

(** X14.  Whatever is submitted, in whatever order, starting from the empty
    log store: every stored entry has a species name and a location that
    are trimmed and not blank, optional fields that are trimmed and not
    empty when present, and there are at most as many entries as
    submissions. *)
Theorem submitAll_wellFormed (subs : list (Entropy * LogForm)) :
  Forall wellFormedEntry (submitAll subs [])
  ∧ (length (submitAll subs []) ≤ length subs)%nat.
Proof.
  unfold submitAll.
  assert (Hgen : ∀ logs : list LogEntry.t,
             Forall wellFormedEntry logs →
             Forall wellFormedEntry (fold_left (λ l s, (onSubmit s.1 s.2 l).2) subs logs)
             ∧ (length (fold_left (λ l s, (onSubmit s.1 s.2 l).2) subs logs)
                ≤ length subs + length logs)%nat).
  { induction subs as [|[en f] subs IH]; intros logs Hlogs; simpl; [done|].
    destruct (onSubmit_cases en f logs) as [->|(e & -> & _ & He)]; simpl.
    - destruct (IH logs Hlogs). split; [done|lia].
    - destruct (IH (e :: logs)) as [? Hlen]; [by constructor|].
      split; [done|]. simpl in Hlen. lia. }
  destruct (Hgen []) as [? Hlen]; [constructor|]. split; [done|].
  simpl in Hlen. lia.
Qed.

(** X15.  Submitting again what the form holds after a submission adds
    nothing: a rejected form is rejected again, and an accepted one has
    been cleared. *)
Theorem onSubmit_twice (en1 en2 : Entropy) (f : LogForm) (logs : list LogEntry.t) :
  onSubmit en2 (onSubmit en1 f logs).1 (onSubmit en1 f logs).2 = onSubmit en1 f logs.
Proof.
  unfold onSubmit at 2 3 4.
  destruct (negb (JsString.truthy (JsString.trim (f_speciesName f)))
            || negb (JsString.truthy (JsString.trim (f_location f)))) eqn:Hc; simpl.
  - unfold onSubmit. by rewrite Hc.
  - reflexivity.
Qed.

Lemma submitAll_ids (subs : list (Entropy * LogForm)) (logs : list LogEntry.t) :
  ∃ acc : list Entropy,
    acc `sublist_of` subs.*1
    ∧ LogEntry.id <$> submitAll subs logs
      = ((uid "log" <$> reverse acc) ++ (LogEntry.id <$> logs))%list.
Proof.
  unfold submitAll. revert logs.
  induction subs as [|[en f] subs IH]; intros logs; simpl.
  - exists []. split; [done|]. done.
  - destruct (onSubmit_cases en f logs) as [->|(e & -> & Hid & _)]; simpl.
    + destruct (IH logs) as (acc & Hsub & ->). exists acc.
      split; [by apply sublist_cons|done].
    + destruct (IH (e :: logs)) as (acc & Hsub & ->). exists (en :: acc).
      split; [by apply sublist_skip|].
      rewrite reverse_cons, fmap_app, <- app_assoc. simpl. by rewrite Hid.
Qed.

Lemma sublist_fmap_keep {A B : Type} (f : A → B) (l1 l2 : list A) :
  l1 `sublist_of` l2 → f <$> l1 `sublist_of` f <$> l2.
Proof.
  induction 1; simpl; [constructor|by apply sublist_skip|by apply sublist_cons].
Qed.

Lemma uid_NoDup (ens : list Entropy) :
  Forall (λ en, hyphenFree (slice2 (random16 en))) ens →
  NoDup (entropyKey <$> ens) →
  NoDup (uid "log" <$> ens).
Proof.
  induction 1 as [|en ens Hen Hens IH]; simpl; [constructor|].
  rewrite !NoDup_cons. intros [Hnin Hnd]. split; [|by apply IH].
  intros (en' & Heq & Hin)%list_elem_of_fmap. apply Hnin.
  rewrite Forall_forall in Hens.
  destruct (uid_inj "log" en en' Hen (Hens en' Hin) Heq) as [Hr Ht].
  apply list_elem_of_fmap. exists en'. split; [|done].
  unfold entropyKey. by rewrite Hr, Ht.
Qed.

(** X16.  When the submissions draw random digits free of hyphens and no
    two of them share both the random digits and the clock value, the
    entries stored from the empty log store have pairwise distinct
    identifiers. *)
Theorem submitAll_ids_distinct (subs : list (Entropy * LogForm)) :
  Forall (λ s, hyphenFree (slice2 (random16 s.1))) subs →
  NoDup (entropyKey <$> subs.*1) →
  NoDup (LogEntry.id <$> submitAll subs []).
Proof.
  intros Hfree Hnd.
  destruct (submitAll_ids subs []) as (acc & Hsub & ->).
  rewrite app_nil_r. apply uid_NoDup.
  - apply Forall_reverse, Forall_forall. intros en Hen.
    apply (elem_of_sublist _ _ _ Hen) in Hsub.
    apply list_elem_of_fmap in Hsub as ([en' f] & -> & Hin).
    rewrite Forall_forall in Hfree. exact (Hfree _ Hin).
  - rewrite reverse_Permutation.
    eapply sublist_NoDup; [exact Hnd|]. by apply sublist_fmap_keep.
Qed.

Lemma submitAll_ids_distinct_witness :
  NoDup (LogEntry.id <$>
           submitAll
             [(mkEntropy "0.8f3a" 1700000000000,
               mkLogForm Raptors "2024-01-05" "Snail Kite" "La Chua" "" "" "");
              (mkEntropy "0.8f3a" 1700000000001,
               mkLogForm General "2024-01-05" " " "La Chua" "" "" "");
              (mkEntropy "0.c41" 1700000000001,
               mkLogForm Owls "2024-01-05" "Barred Owl" "Goethe Forest" "" "" "")]
             []).
Proof.
  apply submitAll_ids_distinct.
  - repeat constructor; done.
  - apply (bool_decide_unpack _). by vm_compute.
Defined.

(** ** More on the filtered view *)

Lemma filtered_elem_of (species : list Species.t) (u : gmap string UserSpecies.t)
    (q : string) (targetsOnly : bool) (month : string) (s : Species.t) :
  s ∈ filtered species u q targetsOnly month
  ↔ s ∈ filtered species u q false month
    ∧ (targetsOnly = true → isTarget u (Species.id s) = true).
Proof.
  unfold filtered. rewrite !filter_filter_and, !list_elem_of_In, !filter_In.
  rewrite !andb_true_iff. destruct targetsOnly.
  - intuition auto.
  - intuition discriminate.
Qed.

Lemma isTarget_toggleTarget (i j : string) (st : State) :
  isTarget (user (toggleTarget i st)) j
  = if bool_decide (j = i) then negb (UserSpecies.target (ensureUserRow (user st) i))
    else isTarget (user st) j.
Proof.
  unfold toggleTarget, isTarget. simpl. case_bool_decide as Hj.
  - subst j. by rewrite lookup_insert_eq.
  - by rewrite lookup_insert_ne.
Qed.

(** X17.  After a toggle of the target flag of one species, the target-only
    view holds that species exactly when it passes the month and the query
    and was no target before; for every other species, being in the
    target-only view is as before. *)
Theorem toggleTarget_view (species : list Species.t) (q month i : string) (st : State)
    (s : Species.t) :
  s ∈ filtered species (user (toggleTarget i st)) q true month
  ↔ if bool_decide (Species.id s = i)
    then s ∈ filtered species (user st) q false month
         ∧ UserSpecies.target (ensureUserRow (user st) i) = false
    else s ∈ filtered species (user st) q true month.
Proof.
  rewrite (filtered_elem_of species (user (toggleTarget i st)) q true month s).
  rewrite isTarget_toggleTarget.
  assert (Hsame : s ∈ filtered species (user (toggleTarget i st)) q false month
                  ↔ s ∈ filtered species (user st) q false month).
  { unfold filtered. by rewrite !filter_filter_and. }
  rewrite Hsame. case_bool_decide as Hi.
  - rewrite negb_true_iff. split; [intros [? Ht]; auto|intros [? Ht]; auto].
  - rewrite (filtered_elem_of species (user st) q true month s). reflexivity.
Qed.

Lemma filter_sublist_impl {A : Type} (f g : A → bool) (l : list A) :
  (∀ x, f x = true → g x = true) →
  List.filter f l `sublist_of` List.filter g l.
Proof.
  intros Hfg. induction l as [|x l IH]; simpl; [constructor|].
  destruct (f x) eqn:Hf.
  - rewrite (Hfg x Hf). by apply sublist_skip.
  - destruct (g x); [by apply sublist_cons|done].
Qed.

Lemma filter_sublist {A : Type} (f : A → bool) (l : list A) :
  List.filter f l `sublist_of` l.
Proof.
  induction l as [|x l IH]; simpl; [constructor|].
  destruct (f x); [by apply sublist_skip|by apply sublist_cons].
Qed.

(** X18.  A blank query filters as the empty query does; and every filter
    only narrows: the view with a query is a subsequence of the view
    without, the target-only view is a subsequence of the view of all, and
    every view is a subsequence of the catalog. *)
Theorem filtered_narrows (species : list Species.t) (u : gmap string UserSpecies.t)
    (q : string) (targetsOnly : bool) (month : string) :
  (blank q → filtered species u q targetsOnly month = filtered species u "" targetsOnly month)
  ∧ filtered species u q targetsOnly month
      `sublist_of` filtered species u "" targetsOnly month
  ∧ filtered species u q true month `sublist_of` filtered species u q false month
  ∧ filtered species u q targetsOnly month `sublist_of` filtered species u q targetsOnly ""
  ∧ filtered species u q targetsOnly month `sublist_of` species.
Proof.
  split_and!.
  - intros Hq. apply trim_empty in Hq. unfold filtered. by rewrite Hq.
  - unfold filtered. rewrite !filter_filter_and. apply filter_sublist_impl.
    intros s. rewrite !andb_true_iff. simpl. tauto.
  - unfold filtered. rewrite !filter_filter_and. apply filter_sublist_impl.
    intros s. rewrite !andb_true_iff. simpl. tauto.
  - unfold filtered. rewrite !filter_filter_and. apply filter_sublist_impl.
    intros s. rewrite !andb_true_iff. simpl. tauto.
  - unfold filtered. rewrite !filter_filter_and. apply filter_sublist.
Qed.

(** ** More on the daily picks *)

(** X19.  There is no pick exactly when every catalog species is completed:
    thanks to the fallback, a month in which no remaining species is
    available does not empty the picks. *)
Theorem todaysPicks_empty (species : list Species.t) (completedIds : list string)
    (month nowISO : string) :
  todaysPicks species completedIds month nowISO = []
  ↔ ∀ s, s ∈ species → Species.id s ∈ completedIds.
Proof.
  assert (Hlen := todaysPicks_length species completedIds month nowISO).
  destruct (picksPool_cases species completedIds month)
    as (candidates & narrowed & Hc & Hn & Hpool).
  assert (Hcand : candidates = [] ↔ ∀ s, s ∈ species → Species.id s ∈ completedIds).
  { split.
    - intros -> s Hs. destruct (decide (Species.id s ∈ completedIds)) as [|Hnin]; [done|].
      assert (Hin : s ∈ []) by (apply (selects_elem_of _ _ _ s Hc); done).
      by apply elem_of_nil in Hin.
    - intros Hall. destruct candidates as [|s l]; [done|].
      assert (Hin : s ∈ s :: l) by left.
      apply (selects_elem_of _ _ _ s Hc) in Hin as [Hs Hnin].
      by destruct Hnin; apply Hall. }
  assert (Hpoolnil : picksPool species completedIds month = [] ↔ candidates = []).
  { destruct Hpool as [[-> ->]|[Hne ->]]; [done|].
    split; [done|]. intros ->. by inversion Hn. }
  rewrite <- Hcand, <- Hpoolnil. split.
  - intros Hnil. rewrite Hnil in Hlen. simpl in Hlen.
    destruct (picksPool species completedIds month); [done|simpl in Hlen; lia].
  - intros Hnil. rewrite Hnil in Hlen. simpl in Hlen.
    by destruct (todaysPicks species completedIds month nowISO).
Qed.

(** X20.  When the catalog identifiers are pairwise distinct, so are the
    identifiers of the picks. *)
Theorem todaysPicks_ids_distinct (species : list Species.t) (completedIds : list string)
    (month nowISO : string) :
  NoDup (Species.id <$> species) →
  NoDup (Species.id <$> todaysPicks species completedIds month nowISO).
Proof.
  intros Hnd.
  assert (Hpool : picksPool species completedIds month `sublist_of` species).
  { unfold picksPool. destruct (negb _).
    - etrans; apply filter_sublist.
    - apply filter_sublist. }
  assert (Hsub : Species.id <$> todaysPicks species completedIds month nowISO
                 ⊆+ Species.id <$> species).
  { apply fmap_submseteq. etrans; [apply todaysPicks_submseteq|].
    by apply sublist_submseteq. }
  apply submseteq_Permutation in Hsub as [k Hk].
  rewrite Hk in Hnd. by apply NoDup_app in Hnd as [? _].
Qed.

Lemma todaysPicks_ids_distinct_witness :
  NoDup (Species.id <$> todaysPicks Sample.catalog ["limpkin"] "Jan" Sample.morning).
Proof.
  apply todaysPicks_ids_distinct.
  apply (bool_decide_unpack _). by vm_compute.
Defined.

(** ** Persistence *)

Section JsonFacts.
Context {T : Type} (stringify : T → string) (parse : string → option T).

End JsonFacts.


Example parseBool_samples :
  parseBool " true
" = Some true
  ∧ parseBool "false" = Some false
  ∧ parseBool "true1" = None
  ∧ parseBool "" = None.
Proof. by vm_compute. Qed.

(** The three stores are kept under three different keys. *)
Example storage_keys_distinct :
  LS_KEY ≠ LS_LOGS ∧ LS_KEY ≠ LS_CHALLENGE ∧ LS_LOGS ≠ LS_CHALLENGE.
Proof. done. Qed.

(** ** Month badges, pick buttons, order of toggles *)

(** X22.  With no query and no target filter, a species is listed under a
    selected month exactly when its badge of that month is lit or it has no
    month map; a species without a month map is thus listed under every
    month although none of its badges is lit. *)
Theorem monthBadge_listed (species : list Species.t) (u : gmap string UserSpecies.t)
    (month : string) (s : Species.t) :
  month ≠ "" →
  (s ∈ filtered species u "" false month
   ↔ s ∈ species ∧ (monthBadge s month = true ∨ Species.months s = None))
  ∧ (Species.months s = None → monthBadge s month = false).
Proof.
  intros Hm. split.
  - unfold filtered, monthBadge. simpl.
    rewrite !filter_filter_and, list_elem_of_In, filter_In, list_elem_of_In.
    apply truthy_spec in Hm. rewrite Hm. simpl.
    destruct (Species.months s) as [ms|].
    + rewrite andb_true_r. split; [intros [? ?]; auto|intros [? [?|?]]; done].
    + split; [intros [? _]; auto|intros [? _]; done].
  - unfold monthBadge. by intros ->.
Qed.

Lemma monthBadge_listed_witness :
  (Sample.jay ∈ filtered Sample.catalog ∅ "" false "Jul"
   ↔ Sample.jay ∈ Sample.catalog
     ∧ (monthBadge Sample.jay "Jul" = true ∨ Species.months Sample.jay = None))
  ∧ (Species.months Sample.jay = None → monthBadge Sample.jay "Jul" = false).
Proof. apply (monthBadge_listed Sample.catalog ∅ "Jul" Sample.jay). done. Defined.

(** X23.  A daily pick is never shown as counted: its identifier is not in
    the completed list.  While the challenge is active with fewer than 100
    completed, its Count button appends the identifier, and the picks
    computed from the new completed list no longer hold the species. *)
Theorem pick_count_button (species : list Species.t) (month nowISO : string)
    (st : State) (s : Species.t) :
  s ∈ todaysPicks species (ChallengeState.completedIds (challenge st)) month nowISO →
  Array_includes (ChallengeState.completedIds (challenge st)) (Species.id s) = false
  ∧ (ChallengeState.active (challenge st) = true →
     (length (ChallengeState.completedIds (challenge st)) < 100)%nat →
     ChallengeState.completedIds (challenge (countPick (Species.id s) st))
     = (ChallengeState.completedIds (challenge st) ++ [Species.id s])%list
     ∧ s ∉ todaysPicks species
             (ChallengeState.completedIds (challenge (countPick (Species.id s) st)))
             month nowISO).
Proof.
  intros Hs. apply todaysPicks_elem_of in Hs as [_ Hnin].
  split; [by apply Array_includes_false|].
  intros Hact Hlen.
  destruct (countPick_challenge_cases (Species.id s) st) as [Heq|(_ & _ & _ & Heq)].
  - exfalso. unfold countPick in Heq. rewrite Hact in Heq. simpl in Heq.
    apply Array_includes_false in Hnin. rewrite Hnin in Heq.
    destruct (Z.geb_spec
                (Z.of_nat (length (ChallengeState.completedIds (challenge st)))) 100);
      [lia|].
    simpl in Heq. apply (f_equal ChallengeState.completedIds) in Heq. simpl in Heq.
    apply (f_equal length) in Heq. rewrite length_app in Heq. simpl in Heq. lia.
  - rewrite Heq. simpl. split; [done|].
    intros [_ Hin]%todaysPicks_elem_of. apply Hin, elem_of_app. right.
    by apply list_elem_of_singleton.
Qed.

Lemma pick_count_button_witness :
  let st := startChallenge Sample.morning initialState in
  Array_includes (ChallengeState.completedIds (challenge st)) (Species.id Sample.jay)
  = false
  ∧ (ChallengeState.active (challenge st) = true →
     (length (ChallengeState.completedIds (challenge st)) < 100)%nat →
     ChallengeState.completedIds (challenge (countPick (Species.id Sample.jay) st))
     = (ChallengeState.completedIds (challenge st) ++ [Species.id Sample.jay])%list
     ∧ Sample.jay ∉ todaysPicks Sample.catalog
             (ChallengeState.completedIds
                (challenge (countPick (Species.id Sample.jay) st)))
             "Jan" Sample.morning).
Proof.
  intros st.
  apply (pick_count_button Sample.catalog "Jan" Sample.morning st Sample.jay).
  vm_compute. apply list_elem_of_further, list_elem_of_here.
Defined.

Lemma toggleSeen_challenge_seen (i : string) (st1 st2 : State) :
  challenge st1 = challenge st2 →
  UserSpecies.seen (ensureUserRow (user st1) i)
  = UserSpecies.seen (ensureUserRow (user st2) i) →
  challenge (toggleSeen i st1) = challenge (toggleSeen i st2).
Proof.
  intros Hc Hs. unfold toggleSeen. rewrite Hc, Hs.
  destruct (negb (ChallengeState.active (challenge st2))); [done|].
  by destruct (_ && _ && _).
Qed.

Lemma toggleTarget_user (j : string) (st : State) :
  user (toggleTarget j st)
  = <[j := UserSpecies.with_target (negb (UserSpecies.target (ensureUserRow (user st) j)))
             (ensureUserRow (user st) j)]> (user st).
Proof. reflexivity. Qed.

(** X24.  The two toggles commute, on the same species or on two: marking
    seen and then target gives the same annotations and the same challenge
    state as marking target and then seen. *)
Theorem toggles_commute (i j : string) (st : State) :
  toggleSeen i (toggleTarget j st) = toggleTarget j (toggleSeen i st).
Proof.
  assert (Hseen : UserSpecies.seen (ensureUserRow (user (toggleTarget j st)) i)
                  = UserSpecies.seen (ensureUserRow (user st) i)).
  { unfold toggleTarget. simpl. destruct (decide (j = i)) as [->|Hji].
    - rewrite ensureUserRow_insert. by destruct (ensureUserRow (user st) i).
    - by rewrite ensureUserRow_insert_ne. }
  assert (Hch : challenge (toggleSeen i (toggleTarget j st))
                = challenge (toggleTarget j (toggleSeen i st))).
  { change (challenge (toggleTarget j (toggleSeen i st)))
      with (challenge (toggleSeen i st)).
    by apply toggleSeen_challenge_seen. }
  assert (Hu : user (toggleSeen i (toggleTarget j st))
               = user (toggleTarget j (toggleSeen i st))).
  { repeat (rewrite toggleSeen_user || rewrite toggleTarget_user).
    destruct (decide (j = i)) as [->|Hji].
    - rewrite !ensureUserRow_insert, !insert_insert_eq.
      by destruct (ensureUserRow (user st) i).
    - rewrite !ensureUserRow_insert_ne by done.
      by rewrite insert_insert_ne. }
  destruct (toggleSeen i (toggleTarget j st)), (toggleTarget j (toggleSeen i st)).
  simpl in *. by subst.
Qed.
